(** * fft-explorer: the signal-analysis core of [src/services/fft.ts]

    A shallow embedding of [dft], [fft] and [getFrequencyComponents], and
    the properties of the specification that concern them.

    Numbers.  The source computes on IEEE doubles.  The properties below are
    stated over exact real arithmetic, so a JavaScript [number] that holds a
    sample, an angle or a spectral value is a real of the Standard Library
    ([R], with [cos], [sin], [sqrt], [PI]); loop counters and array lengths
    are naturals; the one bit operation of the source, [n & (n - 1)], is
    modelled on [Z] with the 32-bit wrap-around of the language written out.

    Arrays.  A JavaScript array may have holes ([new Array(n)]) and reads
    out of range give [undefined]; an array of [A] is therefore a list of
    [option A], where [None] is a hole. *)

From Stdlib Require Import Reals List Arith ZArith Lia Lra Bool Sorted ZifyNat.
From Stdlib Require Import Permutation.
From Equations Require Import Equations.
Import ListNotations.

(** [lia] is to reason about [/ 2] and [mod 2] on indices. *)
Ltac Zify.zify_post_hook ::= Z.to_euclidean_division_equations.

Set Implicit Arguments.

Local Open Scope R_scope.

(* ===================================================================== *)
(** ** Data model ([src/types.ts]) *)

Record Complex : Type := mkComplex { re : R; im : R }.

Record FrequencyComponent : Type := mkComponent
  { frequency : nat;
    amplitude : R;
    phase     : R;
    signal    : list R }.

(* ===================================================================== *)
(** ** JavaScript arrays *)

Module JSArray.

(** An array with possible holes. *)
Definition t (A : Type) : Type := list (option A).

(** [new Array(n)]: [n] holes. *)
Definition new_Array (A : Type) (n : nat) : t A := repeat None n.

(** A dense array, as built by [push] only. *)
Definition dense (A : Type) (l : list A) : t A := map Some l.

(** [a[k]]: [None] stands for [undefined], out of range or on a hole. *)
Definition get (A : Type) (a : t A) (k : nat) : option A :=
  match nth_error a k with
  | Some (Some x) => Some x
  | _ => None
  end.

(** [a[k] = v]: overwrites in range, extends with holes out of range. *)
Fixpoint set (A : Type) (a : t A) (k : nat) (v : A) : t A :=
  match k, a with
  | O, [] => [Some v]
  | O, _ :: a' => Some v :: a'
  | S k', [] => None :: set [] k' v
  | S k', x :: a' => x :: set a' k' v
  end.

(** [a.map((x, i) => f x i)] on a dense array. *)
Fixpoint mapi_from (A B : Type) (f : A -> nat -> B) (i : nat) (l : list A)
  : list B :=
  match l with
  | [] => []
  | x :: l' => f x i :: mapi_from f (S i) l'
  end.

Definition mapi (A B : Type) (f : A -> nat -> B) (l : list A) : list B :=
  mapi_from f 0 l.

End JSArray.

(** The largest length a JavaScript array can have is [2^32 - 1]. *)
Definition js_array_length_ok (n : nat) : Prop := (Z.of_nat n < 2 ^ 32)%Z.

(** [ToInt32]: the conversion applied to both operands of [&]. *)
Definition ToInt32 (z : Z) : Z := ((z + 2 ^ 31) mod 2 ^ 32 - 2 ^ 31)%Z.

(** [(n & (n - 1)) !== 0], the test that sends [fft] to the fallback. *)
Definition not_power_of_two (n : nat) : bool :=
  negb (Z.land (ToInt32 (Z.of_nat n)) (ToInt32 (Z.of_nat n - 1)) =? 0)%Z.

(** [x || 0] on a number or [undefined]: [0] and [undefined] are falsy. *)
Definition or_zero (o : option R) : R :=
  match o with
  | Some x => if Req_dec_T x 0 then 0 else x
  | None => 0
  end.

(** [c || { re: 0, im: 0 }]: an object is truthy, only [undefined] falls
    through. *)
Definition or_zero_complex (o : option Complex) : Complex :=
  match o with
  | Some c => c
  | None => mkComplex 0 0
  end.

(* ===================================================================== *)
(** ** [dft] (fft.ts, lines 8-22) *)

(** [input[t]] for [t] inside the array; the loops never leave it. *)
Definition sample (input : list R) (t : nat) : R := nth t input 0.

(** One turn of the inner loop: [re += ...; im -= ...]. *)
Definition dft_inner_step (input : list R) (n k : nat) (acc : R * R) (t : nat)
  : R * R :=
  let angle := (2 * PI * INR k * INR t) / INR n in
  (fst acc + sample input t * cos angle,
   snd acc - sample input t * sin angle).

(** The inner loop, from [re = 0, im = 0]. *)
Definition dft_bin (input : list R) (k : nat) : Complex :=
  let n := length input in
  let acc := fold_left (dft_inner_step input n k) (seq 0 n) (0, 0) in
  mkComplex (fst acc) (snd acc).

(** The outer loop: one [push] per [k]. *)
Definition dft (input : list R) : list Complex :=
  let n := length input in
  fold_left (fun output k => output ++ [dft_bin input k]) (seq 0 n) [].

(* ===================================================================== *)
(** ** [fft] (fft.ts, lines 28-78) *)

(** Lines 39-44: the samples of even index and those of odd index. *)
Definition split_step (input : list R) (st : list R * list R) (i : nat)
  : list R * list R :=
  if (i mod 2 =? 0)%nat
  then (fst st ++ [sample input i], snd st)
  else (fst st, snd st ++ [sample input i]).

Definition split_parity (input : list R) : list R * list R :=
  fold_left (split_step input) (seq 0 (length input)) ([], []).

Definition evenInput (input : list R) : list R := fst (split_parity input).
Definition oddInput (input : list R) : list R := snd (split_parity input).

(** Complex product, sum and difference as lines 62-74 write them. *)
Definition cmul (a w : Complex) : Complex :=
  mkComplex (re a * re w - im a * im w) (re a * im w + im a * re w).
Definition cadd (a b : Complex) : Complex :=
  mkComplex (re a + re b) (im a + im b).
Definition csub (a b : Complex) : Complex :=
  mkComplex (re a - re b) (im a - im b).

(** The twiddle factor of lines 51-55. *)
Definition twiddle (n k : nat) : Complex :=
  let angle := (-2 * PI * INR k) / INR n in
  mkComplex (cos angle) (sin angle).

(** One turn of the combine loop (lines 51-74).  The index [k + n / 2] is
    an array index only when [n] is even; for an odd [n] it is not an
    integer, the assignment creates a plain property and no element. *)
Definition butterfly_step (n : nat) (even odd : JSArray.t Complex)
  (results : JSArray.t Complex) (k : nat) : JSArray.t Complex :=
  let w := twiddle n k in
  let oddK := or_zero_complex (JSArray.get odd k) in
  let evenK := or_zero_complex (JSArray.get even k) in
  let oddW := cmul oddK w in
  let results := JSArray.set results k (cadd evenK oddW) in
  if Nat.even n
  then JSArray.set results (k + n / 2) (csub evenK oddW)
  else results.

(** The number of turns of [for (k = 0; k < n / 2; k++)]: the [k] with
    [2 * k < n]. *)
Definition half_turns (n : nat) : nat := ((n + 1) / 2)%nat.

(** Lines 49-77. *)
Definition butterfly (n : nat) (even odd : JSArray.t Complex)
  : JSArray.t Complex :=
  fold_left (butterfly_step n even odd) (seq 0 (half_turns n))
            (JSArray.new_Array Complex n).

(** The lengths of the two halves after [m] turns of the split loop. *)
Ltac split_lengths_by_induction :=
  let m := fresh "m" in
  intro m; induction m as [|m [? ?]];
  [ split; reflexivity
  | rewrite seq_S, fold_left_app; simpl fold_left;
    unfold split_step at 1 3; simpl Nat.add;
    destruct (Nat.eqb_spec (m mod 2) 0);
    simpl fst; simpl snd; rewrite ?length_app; simpl length; lia ].

Equations? fft (input : list R) : JSArray.t Complex
  by wf (length input) lt :=
  fft input with le_lt_dec (length input) 1 := {
    | left _ => [Some (mkComplex (or_zero (nth_error input 0)) 0)]
    | right _ =>
        if not_power_of_two (length input)
        then JSArray.dense (dft input)
        else butterfly (length input)
                       (fft (evenInput input)) (fft (oddInput input)) }.
Proof.
  all: assert (Hlen : forall m,
    (length (fst (fold_left (split_step input) (seq 0 m) ([], [])))
       = (m + 1) / 2 /\
     length (snd (fold_left (split_step input) (seq 0 m) ([], [])))
       = m / 2)%nat) by split_lengths_by_induction.
  all: destruct (Hlen (length input)) as [He Ho].
  all: unfold evenInput, oddInput, split_parity; lia.
Qed.

(* ===================================================================== *)
(** ** [getFrequencyComponents] (fft.ts, lines 80-111) *)

(** [Math.atan2(y, x)] on reals, from the arc tangent of the library. *)
Definition atan2 (y x : R) : R :=
  if Rlt_dec 0 x then atan (y / x)
  else if Rlt_dec x 0 then
         if Rlt_dec y 0 then atan (y / x) - PI else atan (y / x) + PI
  else if Rlt_dec 0 y then PI / 2
  else if Rlt_dec y 0 then - (PI / 2)
  else 0.

(** Lines 93-108: the record pushed for bin [k]. *)
Definition component_of_bin (actualLen k : nat) (bin : Complex)
  : FrequencyComponent :=
  let re := re bin in
  let im := im bin in
  let amplitude := (sqrt (re * re + im * im) * 2) / INR actualLen in
  let phase := atan2 im re in
  let signal :=
    JSArray.mapi
      (fun (_ : R) (i : nat) =>
         amplitude * cos ((2 * PI * INR k * INR i) / INR actualLen + phase))
      (repeat 0 actualLen) in
  mkComponent k amplitude phase signal.

(** One turn of the loop of line 89; [if (!bin) continue] skips a hole. *)
Definition components_step (fftData : JSArray.t Complex) (actualLen : nat)
  (components : list FrequencyComponent) (k : nat)
  : list FrequencyComponent :=
  match JSArray.get fftData k with
  | None => components
  | Some bin => components ++ [component_of_bin actualLen k bin]
  end.

(** The second argument, [n] in the source, is the caller's sample count. *)
Definition getFrequencyComponents (fftData : JSArray.t Complex) (n : Z)
  : list FrequencyComponent :=
  if (length fftData =? 0)%nat then []
  else
    let actualLen := length fftData in
    let half := (actualLen / 2)%nat in
    fold_left (components_step fftData actualLen) (seq 1 (half - 1)) [].

(* ===================================================================== *)
(** ** The transform as the specification defines it *)

(** [big_sum f n] is the sum of [f t] for [t] in [[0, n)]. *)
Fixpoint big_sum (f : nat -> R) (n : nat) : R :=
  match n with
  | O => 0
  | S m => big_sum f m + f m
  end.

(** Real part of bin [k]: the sum of [sample[t] * cos(2 pi k t / N)]. *)
Definition dft_re_spec (input : list R) (k : nat) : R :=
  let N := length input in
  big_sum (fun t => sample input t * cos (2 * PI * INR k * INR t / INR N)) N.

(** Imaginary part of bin [k]: minus the sum of
    [sample[t] * sin(2 pi k t / N)]. *)
Definition dft_im_spec (input : list R) (k : nat) : R :=
  let N := length input in
  - big_sum (fun t => sample input t * sin (2 * PI * INR k * INR t / INR N)) N.

Definition dft_spec (input : list R) : list Complex :=
  map (fun k => mkComplex (dft_re_spec input k) (dft_im_spec input k))
      (seq 0 (length input)).

(** Complex conjugates: equal real parts, opposite imaginary parts. *)
Definition conjugates (a b : Complex) : Prop :=
  re a = re b /\ im a = - im b.

(** [input] is transformed by the radix-2 recursion at every level, down to
    the one-sample base case: the fallback to [dft] is never taken. *)
Inductive radix2_path : list R -> Prop :=
| radix2_base (input : list R) :
    (length input <= 1)%nat -> radix2_path input
| radix2_rec (input : list R) :
    (1 < length input)%nat ->
    not_power_of_two (length input) = false ->
    radix2_path (evenInput input) ->
    radix2_path (oddInput input) ->
    radix2_path input.

(** The record that the extractor emits for bin [k] of a spectrum of
    length [M]. *)
Definition expected_component (spectrum : list Complex) (k : nat)
  : FrequencyComponent :=
  let M := length spectrum in
  let bin := nth k spectrum (mkComplex 0 0) in
  let a := 2 * sqrt (re bin * re bin + im bin * im bin) / INR M in
  let p := atan2 (im bin) (re bin) in
  mkComponent k a p
    (map (fun i => a * cos (2 * PI * INR k * INR i / INR M + p)) (seq 0 M)).

(** The two values that turn [k] of the combine loop stores. *)
Definition butterfly_top (n : nat) (even odd : JSArray.t Complex) (k : nat)
  : Complex :=
  cadd (or_zero_complex (JSArray.get even k))
       (cmul (or_zero_complex (JSArray.get odd k)) (twiddle n k)).

Definition butterfly_bottom (n : nat) (even odd : JSArray.t Complex) (k : nat)
  : Complex :=
  csub (or_zero_complex (JSArray.get even k))
       (cmul (or_zero_complex (JSArray.get odd k)) (twiddle n k)).

(** The cosine and sine sums of bin [K] over [n] points of a sequence. *)
Definition cos_sum (x : nat -> R) (K n : nat) : R :=
  big_sum (fun t => x t * cos (2 * PI * INR K * INR t / INR n)) n.

Definition sin_sum (x : nat -> R) (K n : nat) : R :=
  big_sum (fun t => x t * sin (2 * PI * INR K * INR t / INR n)) n.

(** The terms of even index and of odd index of a sequence, and the angle
    of the combine step for bin [k] of a transform of [2 * h] points. *)
Definition even_part (x : nat -> R) (t : nat) : R := x (2 * t)%nat.
Definition odd_part (x : nat -> R) (t : nat) : R := x (2 * t + 1)%nat.
Definition combine_angle (h k : nat) : R := 2 * PI * INR k / INR (2 * h).

(** Lengths on which every radix-2 step of [fft] meets an even length:
    the recursion stops, falls back to [dft], or halves an even length. *)
Inductive regular : nat -> Prop :=
| regular_base (n : nat) : (n <= 1)%nat -> regular n
| regular_fallback (n : nat) : not_power_of_two n = true -> regular n
| regular_even (h : nat) : regular h -> regular (2 * h).

(** Spectra used in the examples below. *)
Definition zero_spectrum4 : list Complex :=
  [mkComplex 0 0; mkComplex 0 0; mkComplex 0 0; mkComplex 0 0].

Definition example_spectrum3 : list Complex :=
  [mkComplex 1 0; mkComplex 2 0; mkComplex 3 0].

Definition example_spectrum4 : list Complex :=
  [mkComplex 0 0; mkComplex 1 0; mkComplex 0 0; mkComplex 1 0].

Definition example_spectrum6 : list Complex :=
  [mkComplex 6 0; mkComplex 0 (-3); mkComplex 1 1; mkComplex 0 0;
   mkComplex 1 (-1); mkComplex 0 3].

(* ===================================================================== *)
(** ** The pipeline of [App.tsx] (lines 48-61) *)

(** [fftResult]: nothing for fewer than two samples, else [fft(signal)].
    The [catch] branch is for an exception of [fft], which has none. *)
Definition fftResult (signal : list R) : JSArray.t Complex :=
  if (length signal <? 2)%nat then [] else fft signal.

(** [components]: the extractor on [fftResult], with the length of the
    signal as sample count. *)
Definition components (signal : list R) : list FrequencyComponent :=
  if (length (fftResult signal) =? 0)%nat then []
  else getFrequencyComponents (fftResult signal) (Z.of_nat (length signal)).

(* ===================================================================== *)
(** ** Vocabulary for the further properties *)

(** The sum of a list of samples. *)
Definition sum_list (l : list R) : R := fold_right Rplus 0 l.

(** The samples [a * x[t] + b * y[t]]. *)
Definition mix (a b : R) (x y : list R) : list R :=
  map (fun p => a * fst p + b * snd p) (combine x y).

(** The bins in [[1, floor(M / 2))] that an array with holes defines. *)
Definition is_defined (A : Type) (o : option A) : bool :=
  match o with Some _ => true | None => false end.

Definition defined_bins (fftData : JSArray.t Complex) : list nat :=
  filter (fun k => is_defined (JSArray.get fftData k))
         (seq 1 (length fftData / 2 - 1)).

(** The sampled tone [A * cos(2 pi f t / N + phi)], [t] in [[0, N)]. *)
Definition tone (N f : nat) (A phi : R) : list R :=
  map (fun t => A * cos (2 * PI * INR f * INR t / INR N + phi)) (seq 0 N).

(** A signal used in the examples below. *)
Definition example_signal6 : list R := [1; 0; -1; 0; 1; 0].

(* ===================================================================== *)
(** ** Resampling in [App.tsx] (lines 27-45) *)


(** [a[z]] for an integral number [z]: [undefined] below 0 and past the
    end. *)
Definition index_Z (a : list R) (z : Z) : option R :=
  if (z <? 0)%Z then None else nth_error a (Z.to_nat z).





(* ===================================================================== *)
(** ** The signal editor ([SignalInput], in src/components) *)

(** The rectangle of the canvas, from [getBoundingClientRect()]. *)
Record DOMRect : Type := mkRect
  { rect_left : R; rect_top : R; rect_width : R; rect_height : R }.

(** [index] of [updateSignalAtPoint]: the sample under the pointer. *)
Definition brush_index (rect : DOMRect) (numPoints : nat) (clientX : R) : Z :=
  let xRatio := (clientX - rect_left rect) / rect_width rect in
  Zfloor (Rmin (Rmax (xRatio * INR numPoints) 0) (INR numPoints - 1)).

(** [val] of [updateSignalAtPoint]: the height of the pointer, from 1 at
    the top of the canvas to -1 at its bottom. *)
Definition brush_value (rect : DOMRect) (clientY : R) : R :=
  let yRatio := (clientY - rect_top rect) / rect_height rect in
  (0.5 - yRatio) * 2.

(** One turn of the brush loop, for the offset [i]. *)
Definition brush_step (numPoints : nat) (index : Z) (val : R)
  (next : JSArray.t R) (i : Z) : JSArray.t R :=
  let targetIdx := (index + i)%Z in
  if ((0 <=? targetIdx) && (targetIdx <? Z.of_nat numPoints))%Z
  then JSArray.set next (Z.to_nat targetIdx) val
  else next.

(** The updater that [updateSignalAtPoint] gives to [onSignalUpdate]:
    a copy of [prev] with the brush of half-width 2 applied. *)
Definition updateSignalAtPoint (rect : DOMRect) (numPoints : nat)
  (clientX clientY : R) (prev : list R) : JSArray.t R :=
  let index := brush_index rect numPoints clientX in
  let val := brush_value rect clientY in
  fold_left (brush_step numPoints index val) [-2; -1; 0; 1; 2]%Z
            (JSArray.dense prev).

(** [applyNumbers], from the parsed numbers on: [None] when there is no
    number (the signal is left as it is), else the new signal.  The index
    [(i / numPoints) * count] is read on the reals; the source computes it
    in doubles, without rounding when [numPoints] is a power of two and
    [numPoints * count < 2^53], and the properties below are for such
    values only. *)
Definition applyNumbers (nums : list R) (numPoints : nat)
  : option (list R) :=
  if (length nums =? 0)%nat then None
  else
    Some (JSArray.mapi
            (fun (_ : R) (i : nat) =>
               let idx :=
                 Zfloor ((INR i / INR numPoints) * INR (length nums)) in
               or_zero (index_Z nums idx))
            (repeat 0 numPoints)).

(* ===================================================================== *)
(** ** The components shown in [Visualizer3D.tsx] (lines 80-84) *)

(** [Array.prototype.sort] with a comparator.  The language requires the
    sort to be stable, and the comparators used here are differences of
    keys, for which the stable sorted arrangement is unique; it is computed
    here by insertion. *)
Fixpoint sort_insert (A : Type) (cmp : A -> A -> R) (x : A) (l : list A)
  : list A :=
  match l with
  | [] => [x]
  | y :: l' =>
      if Rle_dec (cmp x y) 0 then x :: y :: l'
      else y :: sort_insert cmp x l'
  end.

Definition js_sort (A : Type) (cmp : A -> A -> R) (l : list A) : list A :=
  fold_right (sort_insert cmp) [] l.

(** [c => c.amplitude > 0.005]. *)
Definition is_significant (c : FrequencyComponent) : bool :=
  if Rlt_dec 0.005 (amplitude c) then true else false.

(** [significant]: by decreasing amplitude, keep those above 0.005, take
    the first 15, and put them back by increasing frequency. *)
Definition significant (components : list FrequencyComponent)
  : list FrequencyComponent :=
  js_sort (fun a b => INR (frequency a) - INR (frequency b))
    (firstn 15
       (filter is_significant
          (js_sort (fun a b => amplitude b - amplitude a) components))).

(** Sixteen components, by increasing frequency and decreasing amplitude. *)
Definition example_components16 : list FrequencyComponent :=
  [mkComponent 1 16 0 []; mkComponent 2 15 0 []; mkComponent 3 14 0 [];
   mkComponent 4 13 0 []; mkComponent 5 12 0 []; mkComponent 6 11 0 [];
   mkComponent 7 10 0 []; mkComponent 8 9 0 []; mkComponent 9 8 0 [];
   mkComponent 10 7 0 []; mkComponent 11 6 0 []; mkComponent 12 5 0 [];
   mkComponent 13 4 0 []; mkComponent 14 3 0 []; mkComponent 15 2 0 [];
   mkComponent 16 1 0 []].

(* ===================================================================== *)
(** ** Arrays and loops *)

Section ArrayFacts.

Variable A : Type.

Lemma get_dense (l : list A) (k : nat) :
  JSArray.get (JSArray.dense l) k = nth_error l k.
Proof.
  unfold JSArray.get, JSArray.dense.
  rewrite nth_error_map. destruct (nth_error l k); reflexivity.
Qed.

Lemma length_dense (l : list A) : length (JSArray.dense l) = length l.
Proof. apply length_map. Qed.

Lemma set_at_hole (l1 l2 : JSArray.t A) (x : option A) (v : A) :
  JSArray.set (l1 ++ x :: l2) (length l1) v = l1 ++ Some v :: l2.
Proof.
  induction l1 as [|y l1 IH]; simpl.
  - reflexivity.
  - rewrite IH. reflexivity.
Qed.

Lemma push_loop (B : Type) (f : B -> A) (l : list B) (acc : list A) :
  fold_left (fun out k => out ++ [f k]) l acc = acc ++ map f l.
Proof.
  revert acc. induction l as [|b l IH]; intro acc; simpl.
  - symmetry. apply app_nil_r.
  - rewrite IH, <- app_assoc. reflexivity.
Qed.

Lemma mapi_from_repeat (B : Type) (f : A -> nat -> B) (x : A) (n i : nat) :
  JSArray.mapi_from f i (repeat x n) = map (f x) (seq i n).
Proof.
  revert i. induction n as [|n IH]; intro i; simpl.
  - reflexivity.
  - rewrite IH. reflexivity.
Qed.

End ArrayFacts.

Lemma half_turns_spec (n k : nat) :
  (k < half_turns n <-> 2 * k < n)%nat.
Proof. unfold half_turns. lia. Qed.

(* ===================================================================== *)
(** ** Finite sums *)

Section BigSum.

Lemma big_sum_ext (f g : nat -> R) (n : nat) :
  (forall t, (t < n)%nat -> f t = g t) -> big_sum f n = big_sum g n.
Proof.
  induction n as [|n IH]; intro H; simpl.
  - reflexivity.
  - rewrite IH, (H n) by (intros; try apply H; lia). reflexivity.
Qed.

Lemma big_sum_plus (f g : nat -> R) (n : nat) :
  big_sum (fun t => f t + g t) n = big_sum f n + big_sum g n.
Proof. induction n as [|n IH]; simpl; [|rewrite IH]; lra. Qed.

Lemma big_sum_minus (f g : nat -> R) (n : nat) :
  big_sum (fun t => f t - g t) n = big_sum f n - big_sum g n.
Proof. induction n as [|n IH]; simpl; [|rewrite IH]; lra. Qed.

Lemma big_sum_opp (f : nat -> R) (n : nat) :
  big_sum (fun t => - f t) n = - big_sum f n.
Proof. induction n as [|n IH]; simpl; [|rewrite IH]; lra. Qed.

Lemma big_sum_scale (c : R) (f : nat -> R) (n : nat) :
  big_sum (fun t => f t * c) n = big_sum f n * c.
Proof. induction n as [|n IH]; simpl; [|rewrite IH]; lra. Qed.

(** A sum over [[0, 2h)] is the sum of its terms of even index plus the
    sum of its terms of odd index. *)
Lemma big_sum_even_odd (f : nat -> R) (h : nat) :
  big_sum f (2 * h) =
  big_sum (fun t => f (2 * t)%nat) h + big_sum (fun t => f (2 * t + 1)%nat) h.
Proof.
  induction h as [|h IH].
  - simpl. lra.
  - replace (2 * S h)%nat with (S (S (2 * h))) by lia.
    cbn [big_sum]. rewrite IH.
    replace (S (2 * h)) with (2 * h + 1)%nat by lia. lra.
Qed.

End BigSum.

(* ===================================================================== *)
(** ** The loops of [dft] compute the sums of the definition *)

Lemma dft_inner_loop (input : list R) (n k m : nat) :
  fold_left (dft_inner_step input n k) (seq 0 m) (0, 0) =
  (big_sum (fun t => sample input t * cos (2 * PI * INR k * INR t / INR n)) m,
   - big_sum (fun t => sample input t * sin (2 * PI * INR k * INR t / INR n)) m).
Proof.
  induction m as [|m IH].
  - simpl. f_equal. lra.
  - rewrite seq_S, fold_left_app, IH. simpl.
    unfold dft_inner_step. simpl. f_equal. lra.
Qed.

Lemma dft_bin_spec (input : list R) (k : nat) :
  dft_bin input k = mkComplex (dft_re_spec input k) (dft_im_spec input k).
Proof.
  unfold dft_bin, dft_re_spec, dft_im_spec.
  rewrite dft_inner_loop. reflexivity.
Qed.

Lemma dft_is_dft_spec (input : list R) : dft input = dft_spec input.
Proof.
  unfold dft, dft_spec. rewrite push_loop. simpl.
  apply map_ext. intro k. apply dft_bin_spec.
Qed.

Lemma length_dft_spec (input : list R) :
  length (dft_spec input) = length input.
Proof. unfold dft_spec. rewrite length_map, length_seq. reflexivity. Qed.

Lemma nth_error_dft_spec (input : list R) (k : nat) :
  (k < length input)%nat ->
  nth_error (dft_spec input) k =
  Some (mkComplex (dft_re_spec input k) (dft_im_spec input k)).
Proof.
  intro Hk. unfold dft_spec.
  rewrite nth_error_map, nth_error_seq.
  destruct (Nat.ltb_spec k (length input)); [reflexivity | lia].
Qed.

(* ===================================================================== *)
(** ** The split by parity *)

Lemma split_parity_loop (input : list R) (m : nat) :
  fold_left (split_step input) (seq 0 m) ([], []) =
  (map (fun t => sample input (2 * t)) (seq 0 ((m + 1) / 2)),
   map (fun t => sample input (2 * t + 1)) (seq 0 (m / 2))).
Proof.
  induction m as [|m IH].
  - reflexivity.
  - rewrite seq_S, fold_left_app, IH.
    change (0 + m)%nat with m. cbn [fold_left].
    unfold split_step. cbn [fst snd].
    destruct (Nat.eqb_spec (m mod 2) 0) as [Hm|Hm].
    + replace ((S m + 1) / 2)%nat with (S ((m + 1) / 2)) by lia.
      replace (S m / 2)%nat with (m / 2)%nat by lia.
      rewrite seq_S, map_app. change (0 + ?x)%nat with x. cbn [map].
      replace (2 * ((m + 1) / 2))%nat with m by lia. reflexivity.
    + replace ((S m + 1) / 2)%nat with ((m + 1) / 2)%nat by lia.
      replace (S m / 2)%nat with (S (m / 2)) by lia.
      rewrite seq_S, map_app. change (0 + ?x)%nat with x. cbn [map].
      replace (2 * (m / 2) + 1)%nat with m by lia. reflexivity.
Qed.

Lemma evenInput_spec (input : list R) :
  evenInput input =
  map (fun t => sample input (2 * t)) (seq 0 ((length input + 1) / 2)).
Proof. unfold evenInput, split_parity. rewrite split_parity_loop. reflexivity. Qed.

Lemma oddInput_spec (input : list R) :
  oddInput input =
  map (fun t => sample input (2 * t + 1)) (seq 0 (length input / 2)).
Proof. unfold oddInput, split_parity. rewrite split_parity_loop. reflexivity. Qed.

Lemma length_evenInput (input : list R) :
  length (evenInput input) = ((length input + 1) / 2)%nat.
Proof. rewrite evenInput_spec, length_map, length_seq. reflexivity. Qed.

Lemma length_oddInput (input : list R) :
  length (oddInput input) = (length input / 2)%nat.
Proof. rewrite oddInput_spec, length_map, length_seq. reflexivity. Qed.

Lemma sample_evenInput (input : list R) (t : nat) :
  (2 * t < length input)%nat ->
  sample (evenInput input) t = sample input (2 * t).
Proof.
  intro Ht. unfold sample at 1. rewrite evenInput_spec.
  rewrite (nth_indep _ 0 (sample input (2 * 0)))
    by (rewrite length_map, length_seq; lia).
  rewrite (map_nth (fun t => sample input (2 * t))), seq_nth by lia.
  reflexivity.
Qed.

Lemma sample_oddInput (input : list R) (t : nat) :
  (2 * t + 1 < length input)%nat ->
  sample (oddInput input) t = sample input (2 * t + 1).
Proof.
  intro Ht. unfold sample at 1. rewrite oddInput_spec.
  rewrite (nth_indep _ 0 (sample input (2 * 0 + 1)))
    by (rewrite length_map, length_seq; lia).
  rewrite (map_nth (fun t => sample input (2 * t + 1))), seq_nth by lia.
  reflexivity.
Qed.

(* ===================================================================== *)
(** ** The combine loop *)

Lemma set_at_length (A : Type) (l1 l2 : JSArray.t A) (x : option A)
  (k : nat) (v : A) :
  length l1 = k -> JSArray.set (l1 ++ x :: l2) k v = l1 ++ Some v :: l2.
Proof. intros <-. apply set_at_hole. Qed.

(** After [j] turns on an array of even length [2 * h], the first [j] cells
    of each half are filled and the others are still holes. *)
Lemma butterfly_loop (h : nat) (even odd : JSArray.t Complex) (j : nat) :
  (j <= h)%nat ->
  fold_left (butterfly_step (2 * h) even odd) (seq 0 j)
            (JSArray.new_Array Complex (2 * h)) =
  map Some (map (butterfly_top (2 * h) even odd) (seq 0 j))
    ++ repeat None (h - j)
    ++ map Some (map (butterfly_bottom (2 * h) even odd) (seq 0 j))
    ++ repeat None (h - j).
Proof.
  induction j as [|j IH]; intro Hj.
  - cbn [seq map fold_left app]. rewrite Nat.sub_0_r.
    unfold JSArray.new_Array. rewrite <- repeat_app. f_equal. lia.
  - rewrite seq_S, fold_left_app, IH by lia.
    change (0 + j)%nat with j. cbn [fold_left].
    unfold butterfly_step.
    assert (He : Nat.even (2 * h) = true)
      by (rewrite Nat.even_spec; exists h; reflexivity).
    rewrite He.
    replace (2 * h / 2)%nat with h by lia.
    replace (h - j)%nat with (S (h - S j)) by lia.
    cbn [repeat]. rewrite <- (app_comm_cons (repeat None (h - S j))).
    rewrite set_at_length
      by (rewrite !length_map, length_seq; reflexivity).
    fold (butterfly_top (2 * h) even odd j).
    fold (butterfly_bottom (2 * h) even odd j).
    rewrite !map_app. cbn [map].
    set (A := map Some (map (butterfly_top (2 * h) even odd) (seq 0 j))).
    set (B := map Some (map (butterfly_bottom (2 * h) even odd) (seq 0 j))).
    set (a := butterfly_top (2 * h) even odd j).
    set (b := butterfly_bottom (2 * h) even odd j).
    set (holes := repeat None (h - S j)).
    replace (A ++ Some a :: holes ++ B ++ None :: holes)
      with ((A ++ Some a :: holes ++ B) ++ None :: holes)
      by (rewrite <- !app_assoc; cbn [app]; rewrite <- !app_assoc; reflexivity).
    rewrite set_at_length.
    + rewrite <- !app_assoc. cbn [app]. rewrite <- !app_assoc. reflexivity.
    + subst A B holes. rewrite !length_app. cbn [length].
      rewrite !length_app, !length_map, !length_seq, repeat_length. lia.
Qed.

(** On an even length the combine loop fills every cell: first the sums,
    then the differences. *)
Lemma butterfly_even_length (h : nat) (even odd : JSArray.t Complex) :
  butterfly (2 * h) even odd =
  JSArray.dense (map (butterfly_top (2 * h) even odd) (seq 0 h)
                 ++ map (butterfly_bottom (2 * h) even odd) (seq 0 h)).
Proof.
  unfold butterfly.
  replace (half_turns (2 * h)) with h by (unfold half_turns; lia).
  rewrite butterfly_loop by lia.
  rewrite Nat.sub_diag. cbn [repeat app]. rewrite app_nil_r.
  unfold JSArray.dense. rewrite map_app. reflexivity.
Qed.

(* ===================================================================== *)
(** ** The body of [fft] *)

Lemma fft_body (input : list R) :
  fft input =
  if (length input <=? 1)%nat
  then [Some (mkComplex (or_zero (nth_error input 0)) 0)]
  else if not_power_of_two (length input)
       then JSArray.dense (dft input)
       else butterfly (length input)
                      (fft (evenInput input)) (fft (oddInput input)).
Proof.
  rewrite fft_equation_1. unfold fft_unfold_clause_1.
  destruct (le_lt_dec (length input) 1) as [H|H];
    destruct (Nat.leb_spec (length input) 1); try lia; reflexivity.
Qed.

Lemma or_zero_some (x : R) : or_zero (Some x) = x.
Proof.
  unfold or_zero. destruct (Req_dec_T x 0) as [->|_]; reflexivity.
Qed.

(* ===================================================================== *)
(** ** The radix-2 identity on sums *)

Section CooleyTukey.

Variable x : nat -> R.
Variables h k : nat.
Hypothesis h_pos : (0 < h)%nat.

Lemma half_length_nonzero : INR h <> 0.
Proof. apply not_0_INR. lia. Qed.

Lemma twiddle_angle :
  (-2 * PI * INR k) / INR (2 * h) = - combine_angle h k.
Proof.
  unfold combine_angle. rewrite mult_INR. simpl INR.
  field. exact half_length_nonzero.
Qed.

Lemma angle_even (t : nat) :
  2 * PI * INR k * INR (2 * t) / INR (2 * h) =
  2 * PI * INR k * INR t / INR h.
Proof. rewrite !mult_INR. simpl INR. field. exact half_length_nonzero. Qed.

Lemma angle_odd (t : nat) :
  2 * PI * INR k * INR (2 * t + 1) / INR (2 * h) =
  2 * PI * INR k * INR t / INR h + combine_angle h k.
Proof.
  unfold combine_angle. rewrite plus_INR, !mult_INR. simpl INR.
  field. exact half_length_nonzero.
Qed.

Lemma angle_even_shift (t : nat) :
  2 * PI * INR (k + h) * INR (2 * t) / INR (2 * h) =
  2 * PI * INR k * INR t / INR h + 2 * INR t * PI.
Proof.
  rewrite plus_INR, !mult_INR. simpl INR. field. exact half_length_nonzero.
Qed.

Lemma angle_odd_shift (t : nat) :
  2 * PI * INR (k + h) * INR (2 * t + 1) / INR (2 * h) =
  2 * PI * INR k * INR t / INR h + combine_angle h k + PI + 2 * INR t * PI.
Proof.
  unfold combine_angle. rewrite !plus_INR, !mult_INR. simpl INR.
  field. exact half_length_nonzero.
Qed.

Lemma cos_sum_odd_part :
  big_sum (fun t => odd_part x t
             * cos (2 * PI * INR k * INR t / INR h + combine_angle h k)) h =
  cos_sum (odd_part x) k h * cos (combine_angle h k)
  - sin_sum (odd_part x) k h * sin (combine_angle h k).
Proof.
  unfold cos_sum, sin_sum.
  rewrite <- !big_sum_scale, <- big_sum_minus.
  apply big_sum_ext. intros t _. rewrite cos_plus. ring.
Qed.

Lemma sin_sum_odd_part :
  big_sum (fun t => odd_part x t
             * sin (2 * PI * INR k * INR t / INR h + combine_angle h k)) h =
  sin_sum (odd_part x) k h * cos (combine_angle h k)
  + cos_sum (odd_part x) k h * sin (combine_angle h k).
Proof.
  unfold cos_sum, sin_sum.
  rewrite <- !big_sum_scale, <- big_sum_plus.
  apply big_sum_ext. intros t _. rewrite sin_plus. ring.
Qed.

Lemma cos_sum_low :
  cos_sum x k (2 * h) =
  cos_sum (even_part x) k h
  + (cos_sum (odd_part x) k h * cos (combine_angle h k)
     - sin_sum (odd_part x) k h * sin (combine_angle h k)).
Proof.
  rewrite <- cos_sum_odd_part.
  unfold cos_sum at 1. rewrite big_sum_even_odd. f_equal.
  - apply big_sum_ext. intros t _. rewrite angle_even. reflexivity.
  - apply big_sum_ext. intros t _. rewrite angle_odd. reflexivity.
Qed.

Lemma sin_sum_low :
  sin_sum x k (2 * h) =
  sin_sum (even_part x) k h
  + (sin_sum (odd_part x) k h * cos (combine_angle h k)
     + cos_sum (odd_part x) k h * sin (combine_angle h k)).
Proof.
  rewrite <- sin_sum_odd_part.
  unfold sin_sum at 1. rewrite big_sum_even_odd. f_equal.
  - apply big_sum_ext. intros t _. rewrite angle_even. reflexivity.
  - apply big_sum_ext. intros t _. rewrite angle_odd. reflexivity.
Qed.

Lemma cos_sum_high :
  cos_sum x (k + h) (2 * h) =
  cos_sum (even_part x) k h
  - (cos_sum (odd_part x) k h * cos (combine_angle h k)
     - sin_sum (odd_part x) k h * sin (combine_angle h k)).
Proof.
  rewrite <- cos_sum_odd_part.
  unfold cos_sum at 1. rewrite big_sum_even_odd.
  unfold Rminus. rewrite <- big_sum_opp. f_equal.
  - apply big_sum_ext. intros t _.
    rewrite angle_even_shift, cos_period. reflexivity.
  - apply big_sum_ext. intros t _.
    rewrite angle_odd_shift, cos_period, neg_cos. unfold odd_part. ring.
Qed.

Lemma sin_sum_high :
  sin_sum x (k + h) (2 * h) =
  sin_sum (even_part x) k h
  - (sin_sum (odd_part x) k h * cos (combine_angle h k)
     + cos_sum (odd_part x) k h * sin (combine_angle h k)).
Proof.
  rewrite <- sin_sum_odd_part.
  unfold sin_sum at 1. rewrite big_sum_even_odd.
  unfold Rminus. rewrite <- big_sum_opp. f_equal.
  - apply big_sum_ext. intros t _.
    rewrite angle_even_shift, sin_period. reflexivity.
  - apply big_sum_ext. intros t _.
    rewrite angle_odd_shift, sin_period, neg_sin. unfold odd_part. ring.
Qed.

(** The butterfly of the sub-transforms of bin [k] is bin [k] and bin
    [k + h] of the whole. *)
Lemma butterfly_sum :
  cadd (mkComplex (cos_sum (even_part x) k h) (- sin_sum (even_part x) k h))
       (cmul (mkComplex (cos_sum (odd_part x) k h)
                        (- sin_sum (odd_part x) k h))
             (twiddle (2 * h) k)) =
  mkComplex (cos_sum x k (2 * h)) (- sin_sum x k (2 * h)).
Proof.
  unfold cadd, cmul, twiddle. cbn [re im].
  rewrite twiddle_angle, cos_neg, sin_neg, cos_sum_low, sin_sum_low.
  f_equal; ring.
Qed.

Lemma butterfly_difference :
  csub (mkComplex (cos_sum (even_part x) k h) (- sin_sum (even_part x) k h))
       (cmul (mkComplex (cos_sum (odd_part x) k h)
                        (- sin_sum (odd_part x) k h))
             (twiddle (2 * h) k)) =
  mkComplex (cos_sum x (k + h) (2 * h)) (- sin_sum x (k + h) (2 * h)).
Proof.
  unfold csub, cmul, twiddle. cbn [re im].
  rewrite twiddle_angle, cos_neg, sin_neg, cos_sum_high, sin_sum_high.
  f_equal; ring.
Qed.

End CooleyTukey.

(* ===================================================================== *)
(** ** [fft] computes the transform of the definition *)

Lemma cos_sum_ext (x y : nat -> R) (K n : nat) :
  (forall t, (t < n)%nat -> x t = y t) -> cos_sum x K n = cos_sum y K n.
Proof.
  intro H. apply big_sum_ext. intros t Ht. rewrite (H t Ht). reflexivity.
Qed.

Lemma sin_sum_ext (x y : nat -> R) (K n : nat) :
  (forall t, (t < n)%nat -> x t = y t) -> sin_sum x K n = sin_sum y K n.
Proof.
  intro H. apply big_sum_ext. intros t Ht. rewrite (H t Ht). reflexivity.
Qed.

Lemma dft_spec_bin (input : list R) (k : nat) :
  mkComplex (dft_re_spec input k) (dft_im_spec input k) =
  mkComplex (cos_sum (sample input) k (length input))
            (- sin_sum (sample input) k (length input)).
Proof. reflexivity. Qed.

Lemma seq_shifted (h m : nat) :
  seq h m = map (fun k => (k + h)%nat) (seq 0 m).
Proof.
  induction m as [|m IH].
  - reflexivity.
  - rewrite !seq_S, map_app, <- IH. cbn [map]. do 2 f_equal. lia.
Qed.

(** Bin [k] of the transforms of the two halves of an input of length
    [2 * h]. *)
Lemma halves_bins (input : list R) (h k : nat) :
  length input = (2 * h)%nat ->
  dft_re_spec (evenInput input) k
    = cos_sum (even_part (sample input)) k h /\
  dft_im_spec (evenInput input) k
    = - sin_sum (even_part (sample input)) k h /\
  dft_re_spec (oddInput input) k
    = cos_sum (odd_part (sample input)) k h /\
  dft_im_spec (oddInput input) k
    = - sin_sum (odd_part (sample input)) k h.
Proof.
  intro Hlen.
  assert (He : length (evenInput input) = h)
    by (rewrite length_evenInput; lia).
  assert (Ho : length (oddInput input) = h)
    by (rewrite length_oddInput; lia).
  unfold dft_re_spec, dft_im_spec. rewrite He, Ho.
  fold (cos_sum (sample (evenInput input)) k h).
  fold (sin_sum (sample (evenInput input)) k h).
  fold (cos_sum (sample (oddInput input)) k h).
  fold (sin_sum (sample (oddInput input)) k h).
  repeat split; try apply (f_equal Ropp);
    first [apply cos_sum_ext | apply sin_sum_ext]; intros t Ht;
    first [apply sample_evenInput | apply sample_oddInput]; lia.
Qed.

(** The combine step on the transforms of the halves. *)
Lemma butterfly_of_halves (input : list R) (h : nat) :
  (0 < h)%nat ->
  length input = (2 * h)%nat ->
  butterfly (2 * h) (JSArray.dense (dft_spec (evenInput input)))
                    (JSArray.dense (dft_spec (oddInput input)))
  = JSArray.dense (dft_spec input).
Proof.
  intros Hh Hlen.
  assert (He : length (evenInput input) = h)
    by (rewrite length_evenInput; lia).
  assert (Ho : length (oddInput input) = h)
    by (rewrite length_oddInput; lia).
  rewrite butterfly_even_length. f_equal.
  set (E := JSArray.dense (dft_spec (evenInput input))).
  set (O := JSArray.dense (dft_spec (oddInput input))).
  unfold dft_spec. rewrite Hlen.
  replace (seq 0 (2 * h)) with (seq 0 h ++ seq h h)
    by (rewrite <- seq_app; f_equal; lia).
  rewrite map_app, (seq_shifted h h), map_map.
  subst E O.
  f_equal; apply map_ext_in; intros k Hk; apply in_seq in Hk;
    destruct (@halves_bins input h k Hlen) as (E1 & E2 & O1 & O2).
  - unfold butterfly_top. rewrite !get_dense.
    rewrite !nth_error_dft_spec by lia. cbn [or_zero_complex].
    rewrite E1, E2, O1, O2.
    rewrite (@butterfly_sum (sample input) h k Hh). rewrite <- Hlen.
    reflexivity.
  - unfold butterfly_bottom. rewrite !get_dense.
    rewrite !nth_error_dft_spec by lia. cbn [or_zero_complex].
    rewrite E1, E2, O1, O2.
    rewrite (@butterfly_difference (sample input) h k Hh). rewrite <- Hlen.
    reflexivity.
Qed.

Lemma fft_one_sample (x : R) : fft [x] = [Some (mkComplex x 0)].
Proof.
  rewrite fft_body. cbn [length Nat.leb nth_error].
  rewrite or_zero_some. reflexivity.
Qed.

Lemma dft_spec_one_sample (x : R) : dft_spec [x] = [mkComplex x 0].
Proof.
  unfold dft_spec, dft_re_spec, dft_im_spec.
  cbn [length seq map big_sum sample nth].
  replace (2 * PI * INR 0 * INR 0 / INR 1) with 0 by (simpl; field).
  rewrite cos_0, sin_0. do 2 f_equal; ring.
Qed.

(** On a regular length, [fft] returns the transform of the definition, as
    a dense array. *)
Lemma fft_regular (n : nat) :
  regular n ->
  forall input : list R,
    length input = n -> (1 <= n)%nat ->
    fft input = JSArray.dense (dft_spec input).
Proof.
  assert (Hsmall : forall input : list R,
             (1 <= length input)%nat -> (length input <= 1)%nat ->
             fft input = JSArray.dense (dft_spec input)).
  { intros [|x [|y l]] H1 H2; simpl in H1, H2; try lia.
    rewrite fft_one_sample, dft_spec_one_sample. reflexivity. }
  assert (Hfallback : forall input : list R,
             (1 <= length input)%nat ->
             not_power_of_two (length input) = true ->
             fft input = JSArray.dense (dft_spec input)).
  { intros input H1 Hnp.
    destruct (Nat.le_gt_cases (length input) 1) as [Hle|Hgt].
    - apply Hsmall; assumption.
    - rewrite fft_body. destruct (Nat.leb_spec (length input) 1); [lia|].
      rewrite Hnp, dft_is_dft_spec. reflexivity. }
  induction 1 as [n Hn | n Hn | h Hh IH]; intros input Hlen H1.
  - apply Hsmall; lia.
  - apply Hfallback; [lia | rewrite Hlen; exact Hn].
  - destruct (not_power_of_two (2 * h)) eqn:Hnp.
    + apply Hfallback; [lia | rewrite Hlen; exact Hnp].
    + rewrite fft_body. destruct (Nat.leb_spec (length input) 1); [lia|].
      rewrite Hlen, Hnp.
      rewrite (IH (evenInput input)), (IH (oddInput input))
        by (rewrite ?length_evenInput, ?length_oddInput; lia).
      apply butterfly_of_halves; [lia | exact Hlen].
Qed.

(* ===================================================================== *)
(** ** The power-of-two test *)

Lemma ToInt32_mod (z : Z) : (ToInt32 z mod 2 ^ 32 = z mod 2 ^ 32)%Z.
Proof.
  unfold ToInt32. rewrite Zminus_mod_idemp_l. f_equal. lia.
Qed.

Lemma ToInt32_bits (z i : Z) :
  (i < 32)%Z -> Z.testbit (ToInt32 z) i = Z.testbit z i.
Proof.
  intro Hi.
  rewrite <- (Z.mod_pow2_bits_low (ToInt32 z) 32 i Hi), ToInt32_mod.
  apply Z.mod_pow2_bits_low. exact Hi.
Qed.

(** An odd length of at least 3 fails the test: it goes to [dft]. *)
Lemma odd_length_falls_back (a : nat) :
  (1 <= a)%nat -> js_array_length_ok (2 * a + 1) ->
  not_power_of_two (2 * a + 1) = true.
Proof.
  unfold js_array_length_ok, not_power_of_two. intros Ha Hok.
  apply negb_true_iff, Z.eqb_neq. intro Hland.
  set (z := Z.of_nat a).
  assert (Hz : (0 < z)%Z) by (subst z; lia).
  assert (Hlog : (0 <= Z.log2 z < 31)%Z).
  { split; [apply Z.log2_nonneg|].
    apply Z.log2_lt_pow2; [exact Hz | subst z; lia]. }
  assert (Hbit : Z.testbit
            (Z.land (ToInt32 (Z.of_nat (2 * a + 1)))
                    (ToInt32 (Z.of_nat (2 * a + 1) - 1)))
            (Z.succ (Z.log2 z)) = true).
  { rewrite Z.land_spec, !ToInt32_bits by lia.
    replace (Z.of_nat (2 * a + 1)) with (2 * z + 1)%Z by (subst z; lia).
    replace (2 * z + 1 - 1)%Z with (2 * z)%Z by lia.
    rewrite Z.testbit_odd_succ, Z.testbit_even_succ by lia.
    rewrite Z.bit_log2 by exact Hz. reflexivity. }
  rewrite Hland, Z.bits_0 in Hbit. discriminate.
Qed.

(** Within the lengths a JavaScript array can have, the radix-2 step is
    reached only on an even length. *)
Lemma fast_path_even (n : nat) :
  (1 < n)%nat -> js_array_length_ok n -> not_power_of_two n = false ->
  n = (2 * (n / 2))%nat.
Proof.
  intros Hn Hok Hnp.
  destruct (Nat.eq_dec (n mod 2) 0) as [He|Ho]; [lia|].
  assert (Hodd : n = (2 * (n / 2) + 1)%nat) by lia.
  assert (Hfb : not_power_of_two (2 * (n / 2) + 1) = true).
  { apply odd_length_falls_back; [lia | rewrite <- Hodd; exact Hok]. }
  rewrite <- Hodd, Hnp in Hfb. discriminate.
Qed.

Lemma small_powers_pass :
  forallb (fun z => Z.land (ToInt32 (2 ^ z)) (ToInt32 (2 ^ z - 1)) =? 0)%Z
          (map Z.of_nat (seq 0 32)) = true.
Proof. vm_compute. reflexivity. Qed.

(** A power of two passes the test, whatever its size. *)
Lemma power_of_two_passes (m : nat) : not_power_of_two (2 ^ m) = false.
Proof.
  unfold not_power_of_two. apply negb_false_iff.
  rewrite Nat2Z.inj_pow. change (Z.of_nat 2) with 2%Z.
  destruct (Nat.lt_ge_cases m 32) as [Hlt|Hge].
  - pose proof small_powers_pass as H.
    rewrite forallb_forall in H. apply H.
    apply in_map, in_seq. lia.
  - apply Z.eqb_eq.
    assert (H0 : ToInt32 (2 ^ Z.of_nat m) = 0%Z).
    { unfold ToInt32.
      replace (2 ^ Z.of_nat m)%Z with (2 ^ (Z.of_nat m - 32) * 2 ^ 32)%Z
        by (rewrite <- Z.pow_add_r by lia; f_equal; lia).
      rewrite Z.add_comm, Z_mod_plus_full. reflexivity. }
    rewrite H0. apply Z.land_0_l.
Qed.

Lemma regular_bounded (n : nat) : js_array_length_ok n -> regular n.
Proof.
  induction n as [n IH] using lt_wf_ind. intro Hok.
  destruct (Nat.le_gt_cases n 1) as [Hle|Hgt].
  - apply regular_base. exact Hle.
  - destruct (not_power_of_two n) eqn:Hnp.
    + apply regular_fallback. exact Hnp.
    + rewrite (fast_path_even Hgt Hok Hnp).
      apply regular_even, IH; [lia|].
      unfold js_array_length_ok in *. lia.
Qed.

Lemma regular_power_of_two (m : nat) : regular (2 ^ m).
Proof.
  induction m as [|m IH].
  - apply regular_base. simpl. lia.
  - rewrite Nat.pow_succ_r'. apply regular_even, IH.
Qed.

(* ===================================================================== *)
(** ** The extractor on a dense spectrum *)

Lemma component_of_bin_expected (spectrum : list Complex) (k : nat)
  (bin : Complex) :
  nth_error spectrum k = Some bin ->
  component_of_bin (length spectrum) k bin = expected_component spectrum k.
Proof.
  intro Hk. unfold component_of_bin, expected_component.
  rewrite (nth_error_nth _ _ (mkComplex 0 0) Hk).
  unfold JSArray.mapi. rewrite mapi_from_repeat.
  replace (sqrt (re bin * re bin + im bin * im bin) * 2 / INR (length spectrum))
    with (2 * sqrt (re bin * re bin + im bin * im bin) / INR (length spectrum))
    by (unfold Rdiv; ring).
  reflexivity.
Qed.

Lemma components_loop (spectrum : list Complex) (l : list nat)
  (acc : list FrequencyComponent) :
  (forall k, In k l -> (k < length spectrum)%nat) ->
  fold_left (components_step (JSArray.dense spectrum) (length spectrum)) l acc
  = acc ++ map (expected_component spectrum) l.
Proof.
  revert acc. induction l as [|k l IH]; intros acc Hl.
  - cbn [fold_left map]. symmetry. apply app_nil_r.
  - cbn [fold_left map]. unfold components_step at 2.
    rewrite get_dense.
    destruct (nth_error spectrum k) as [bin|] eqn:Hk.
    + rewrite IH by (intros; apply Hl; right; assumption).
      rewrite (component_of_bin_expected _ _ Hk), <- app_assoc.
      reflexivity.
    + apply nth_error_None in Hk.
      specialize (Hl k (or_introl eq_refl)). lia.
Qed.

(** One record per bin [k] in [[1, floor(M / 2))], in that order. *)
Lemma getFrequencyComponents_dense (spectrum : list Complex) (n : Z) :
  getFrequencyComponents (JSArray.dense spectrum) n =
  map (expected_component spectrum) (seq 1 (length spectrum / 2 - 1)).
Proof.
  unfold getFrequencyComponents. rewrite length_dense.
  destruct (Nat.eqb_spec (length spectrum) 0) as [H0|H0].
  - rewrite H0. reflexivity.
  - rewrite components_loop; [reflexivity|].
    intros k Hk. apply in_seq in Hk. lia.
Qed.

Lemma in_getFrequencyComponents (spectrum : list Complex) (n : Z)
  (r : FrequencyComponent) :
  In r (getFrequencyComponents (JSArray.dense spectrum) n) <->
  exists k, (1 <= k < length spectrum / 2)%nat /\
            r = expected_component spectrum k.
Proof.
  rewrite getFrequencyComponents_dense, in_map_iff.
  split; intros [k [H1 H2]]; exists k.
  - apply in_seq in H2. split; [lia | congruence].
  - split; [congruence | apply in_seq; lia].
Qed.

Lemma seq_strictly_increasing (a m : nat) : StronglySorted lt (seq a m).
Proof.
  revert a. induction m as [|m IH]; intro a; cbn [seq]; constructor.
  - apply IH.
  - apply Forall_forall. intros x Hx. apply in_seq in Hx. lia.
Qed.

(* ===================================================================== *)
(** ** Symmetry of the transform of a real input *)

Section Mirror.

Variable x : nat -> R.
Variables N k : nat.
Hypothesis k_le : (k <= N)%nat.
Hypothesis N_pos : (0 < N)%nat.

Lemma angle_mirror (t : nat) :
  2 * PI * INR (N - k) * INR t / INR N =
  - (2 * PI * INR k * INR t / INR N) + 2 * INR t * PI.
Proof.
  rewrite minus_INR by exact k_le. field. apply not_0_INR. lia.
Qed.

Lemma cos_sum_mirror : cos_sum x (N - k) N = cos_sum x k N.
Proof.
  apply big_sum_ext. intros t _.
  rewrite angle_mirror, cos_period, cos_neg. reflexivity.
Qed.

Lemma sin_sum_mirror : sin_sum x (N - k) N = - sin_sum x k N.
Proof.
  unfold sin_sum. rewrite <- big_sum_opp.
  apply big_sum_ext. intros t _.
  rewrite angle_mirror, sin_period, sin_neg. ring.
Qed.

End Mirror.

Lemma radix2_path_power_of_two (m : nat) (input : list R) :
  length input = (2 ^ m)%nat -> radix2_path input.
Proof.
  revert input. induction m as [|m IH]; intros input Hlen.
  - apply radix2_base. rewrite Hlen. simpl. lia.
  - rewrite Nat.pow_succ_r' in Hlen.
    assert (Hpos : (0 < 2 ^ m)%nat) by (apply Nat.neq_0_lt_0, Nat.pow_nonzero; lia).
    apply radix2_rec.
    + lia.
    + rewrite Hlen, <- Nat.pow_succ_r'. apply power_of_two_passes.
    + apply IH. rewrite length_evenInput. lia.
    + apply IH. rewrite length_oddInput. lia.
Qed.

(* ===================================================================== *)
(** ** The model on small inputs *)

(** Two samples go through one combine step. *)
Example fft_two_samples (a b : R) :
  fft [a; b] = [Some (mkComplex (a + b) 0); Some (mkComplex (a - b) 0)].
Proof.
  rewrite fft_body. cbn [length Nat.leb].
  change (not_power_of_two 2) with false. cbv iota.
  change (evenInput [a; b]) with [a]. change (oddInput [a; b]) with [b].
  rewrite !fft_one_sample.
  unfold butterfly. change (half_turns 2) with 1%nat.
  cbn [seq fold_left]. unfold butterfly_step.
  cbn [Nat.even JSArray.get nth_error or_zero_complex JSArray.new_Array
       repeat JSArray.set].
  change (0 + 2 / 2)%nat with 1%nat. cbn [JSArray.set].
  unfold cadd, csub, cmul, twiddle. cbn [re im].
  replace (-2 * PI * INR 0 / INR 2) with 0 by (simpl; field).
  rewrite cos_0, sin_0.
  repeat f_equal; ring.
Qed.

(** Three samples go to [dft]; bin 0 is their sum. *)
Example fft_three_samples_dc (a b c : R) :
  not_power_of_two 3 = true /\
  JSArray.get (fft [a; b; c]) 0 = Some (mkComplex (a + b + c) 0).
Proof.
  split; [reflexivity|].
  rewrite fft_body. cbn [length Nat.leb].
  change (not_power_of_two 3) with true. cbv iota.
  rewrite get_dense. unfold dft. cbn [length seq fold_left app nth_error].
  unfold dft_bin. cbn [length seq fold_left].
  unfold dft_inner_step. cbn [fst snd sample nth].
  replace (2 * PI * INR 0 * INR 0 / INR 3) with 0 by (simpl; field).
  replace (2 * PI * INR 0 * INR 1 / INR 3) with 0 by (simpl; field).
  replace (2 * PI * INR 0 * INR 2 / INR 3) with 0 by (simpl; field).
  rewrite cos_0, sin_0. do 2 f_equal; ring.
Qed.

(* ===================================================================== *)
(** ** Properties of the Spectral Transform *)

(** C1.  For an input of [N >= 1] samples, [fft] returns [N] complex
    values, and bin [k] is the discrete Fourier transform with the negative
    exponent: its real part is the sum of [sample[t] * cos(2 pi k t / N)]
    and its imaginary part is minus the sum of
    [sample[t] * sin(2 pi k t / N)], on the radix-2 path as on the fallback
    path. *)
Theorem fft_is_dft (input : list R) (k : nat) :
  (1 <= length input)%nat ->
  js_array_length_ok (length input) ->
  (k < length input)%nat ->
  length (fft input) = length input /\
  exists bin : Complex,
    JSArray.get (fft input) k = Some bin /\
    re bin = dft_re_spec input k /\
    im bin = dft_im_spec input k.
Proof.
  intros H1 Hok Hk.
  rewrite (fft_regular (regular_bounded Hok) input eq_refl H1).
  split.
  - rewrite length_dense. apply length_dft_spec.
  - eexists. rewrite get_dense, nth_error_dft_spec by exact Hk.
    split; [reflexivity|]. split; reflexivity.
Qed.

Lemma fft_is_dft_witness :
  (1 <= length [1; 2; 3])%nat /\
  js_array_length_ok (length [1; 2; 3]) /\
  (2 < length [1; 2; 3])%nat /\
  length (fft [1; 2; 3]) = length [1; 2; 3] /\
  exists bin : Complex,
    JSArray.get (fft [1; 2; 3]) 2 = Some bin /\
    re bin = dft_re_spec [1; 2; 3] 2 /\
    im bin = dft_im_spec [1; 2; 3] 2.
Proof.
  assert (H1 : (1 <= length [1; 2; 3])%nat) by (simpl; lia).
  assert (H2 : js_array_length_ok (length [1; 2; 3]))
    by (unfold js_array_length_ok; simpl; lia).
  assert (H3 : (2 < length [1; 2; 3])%nat) by (simpl; lia).
  split; [exact H1|]. split; [exact H2|]. split; [exact H3|].
  exact (@fft_is_dft [1; 2; 3] 2%nat H1 H2 H3).
Defined.

(** C5.  On an input whose length is a power of two greater than 1, [fft]
    follows the radix-2 recursion down to single samples, and its result is
    the spectrum that the direct transform [dft] computes, bin for bin. *)
Theorem radix2_agrees_with_dft (input : list R) (m : nat) :
  (1 <= m)%nat ->
  length input = (2 ^ m)%nat ->
  radix2_path input /\
  not_power_of_two (length input) = false /\
  fft input = JSArray.dense (dft input).
Proof.
  intros Hm Hlen.
  assert (Hpos : (0 < 2 ^ m)%nat)
    by (apply Nat.neq_0_lt_0, Nat.pow_nonzero; lia).
  split; [exact (radix2_path_power_of_two m input Hlen)|].
  split; [rewrite Hlen; apply power_of_two_passes|].
  rewrite dft_is_dft_spec.
  apply (fft_regular (regular_power_of_two m)); [exact Hlen | lia].
Qed.

Lemma radix2_agrees_with_dft_witness :
  (1 <= 2)%nat /\
  length [1; 0; -1; 0] = (2 ^ 2)%nat /\
  radix2_path [1; 0; -1; 0] /\
  not_power_of_two (length [1; 0; -1; 0]) = false /\
  fft [1; 0; -1; 0] = JSArray.dense (dft [1; 0; -1; 0]).
Proof.
  assert (H1 : (1 <= 2)%nat) by lia.
  assert (H2 : length [1; 0; -1; 0] = (2 ^ 2)%nat) by reflexivity.
  split; [exact H1|]. split; [exact H2|].
  exact (@radix2_agrees_with_dft [1; 0; -1; 0] 2%nat H1 H2).
Defined.

(** C6.  For an input of [N >= 1] samples [fft] returns exactly [N]
    values; for the empty input it returns the single bin [(0, 0)]; for a
    single sample [x] it returns the single bin [(x, 0)]. *)
Theorem fft_output_length (input : list R) :
  (1 <= length input)%nat ->
  js_array_length_ok (length input) ->
  length (fft input) = length input /\
  fft [] = [Some (mkComplex 0 0)] /\
  (forall x : R, fft [x] = [Some (mkComplex x 0)]).
Proof.
  intros H1 Hok. split; [|split].
  - rewrite (fft_regular (regular_bounded Hok) input eq_refl H1).
    rewrite length_dense. apply length_dft_spec.
  - rewrite fft_body. reflexivity.
  - exact fft_one_sample.
Qed.

Lemma fft_output_length_witness :
  (1 <= length [4; 5; 6; 7; 8])%nat /\
  js_array_length_ok (length [4; 5; 6; 7; 8]) /\
  length (fft [4; 5; 6; 7; 8]) = length [4; 5; 6; 7; 8] /\
  fft [] = [Some (mkComplex 0 0)] /\
  (forall x : R, fft [x] = [Some (mkComplex x 0)]).
Proof.
  assert (H1 : (1 <= length [4; 5; 6; 7; 8])%nat) by (simpl; lia).
  assert (H2 : js_array_length_ok (length [4; 5; 6; 7; 8]))
    by (unfold js_array_length_ok; simpl; lia).
  split; [exact H1|]. split; [exact H2|].
  exact (@fft_output_length [4; 5; 6; 7; 8] H1 H2).
Defined.

(** C7.  Hermitian symmetry: for a real input of [N >= 1] samples and
    [1 <= k < N], bins [k] and [N - k] of [fft] are complex conjugates. *)
Theorem fft_hermitian (input : list R) (k : nat) :
  (1 <= k)%nat ->
  (k < length input)%nat ->
  js_array_length_ok (length input) ->
  exists a b : Complex,
    JSArray.get (fft input) k = Some a /\
    JSArray.get (fft input) (length input - k) = Some b /\
    conjugates a b.
Proof.
  intros Hk1 Hk2 Hok.
  rewrite (fft_regular (regular_bounded Hok) input eq_refl) by lia.
  do 2 eexists. rewrite !get_dense, !nth_error_dft_spec by lia.
  split; [reflexivity|]. split; [reflexivity|].
  rewrite !dft_spec_bin. unfold conjugates. cbn [re im].
  rewrite cos_sum_mirror, sin_sum_mirror by lia.
  split; [reflexivity | ring].
Qed.

Lemma fft_hermitian_witness :
  (1 <= 1)%nat /\
  (1 < length [2; 7; 1; 8])%nat /\
  js_array_length_ok (length [2; 7; 1; 8]) /\
  exists a b : Complex,
    JSArray.get (fft [2; 7; 1; 8]) 1 = Some a /\
    JSArray.get (fft [2; 7; 1; 8]) (length [2; 7; 1; 8] - 1) = Some b /\
    conjugates a b.
Proof.
  assert (H1 : (1 <= 1)%nat) by lia.
  assert (H2 : (1 < length [2; 7; 1; 8])%nat) by (simpl; lia).
  assert (H3 : js_array_length_ok (length [2; 7; 1; 8]))
    by (unfold js_array_length_ok; simpl; lia).
  split; [exact H1|]. split; [exact H2|]. split; [exact H3|].
  exact (@fft_hermitian [2; 7; 1; 8] 1%nat H1 H2 H3).
Defined.

(** C9.  In the combine step of [fft] on an input whose length [N] is a
    power of two greater than 1, the recursive results [even] and [odd]
    have length [N / 2] each, and for every [k] of the loop both [even[k]]
    and [odd[k]] are defined: the zero-valued fallbacks are never used. *)
Theorem butterfly_guard_unreachable (input : list R) (m k : nat) :
  (1 <= m)%nat ->
  length input = (2 ^ m)%nat ->
  (k < half_turns (length input))%nat ->
  fft input = butterfly (length input)
                        (fft (evenInput input)) (fft (oddInput input)) /\
  length (fft (evenInput input)) = (length input / 2)%nat /\
  length (fft (oddInput input)) = (length input / 2)%nat /\
  (k < length input / 2)%nat /\
  (exists evenK, JSArray.get (fft (evenInput input)) k = Some evenK) /\
  (exists oddK, JSArray.get (fft (oddInput input)) k = Some oddK).
Proof.
  intros Hm Hlen Hk.
  destruct m as [|m]; [lia|].
  assert (Hpos : (0 < 2 ^ m)%nat)
    by (apply Nat.neq_0_lt_0, Nat.pow_nonzero; lia).
  assert (Hn : length input = (2 * 2 ^ m)%nat)
    by (rewrite Hlen; apply Nat.pow_succ_r').
  assert (He : length (evenInput input) = (2 ^ m)%nat)
    by (rewrite length_evenInput; lia).
  assert (Ho : length (oddInput input) = (2 ^ m)%nat)
    by (rewrite length_oddInput; lia).
  assert (Hk' : (k < 2 ^ m)%nat) by (apply half_turns_spec in Hk; lia).
  split.
  { rewrite fft_body at 1.
    destruct (Nat.leb_spec (length input) 1); [lia|].
    rewrite Hlen at 1. rewrite power_of_two_passes. reflexivity. }
  rewrite (fft_regular (regular_power_of_two m) (evenInput input) He)
    by lia.
  rewrite (fft_regular (regular_power_of_two m) (oddInput input) Ho)
    by lia.
  rewrite !length_dense, !length_dft_spec, !get_dense.
  rewrite !nth_error_dft_spec by lia.
  split; [lia|]. split; [lia|]. split; [lia|].
  split; eexists; reflexivity.
Qed.

Lemma butterfly_guard_unreachable_witness :
  (1 <= 2)%nat /\
  length [3; 1; 4; 1] = (2 ^ 2)%nat /\
  (1 < half_turns (length [3; 1; 4; 1]))%nat /\
  fft [3; 1; 4; 1] =
    butterfly (length [3; 1; 4; 1])
              (fft (evenInput [3; 1; 4; 1])) (fft (oddInput [3; 1; 4; 1])) /\
  length (fft (evenInput [3; 1; 4; 1])) = (length [3; 1; 4; 1] / 2)%nat /\
  length (fft (oddInput [3; 1; 4; 1])) = (length [3; 1; 4; 1] / 2)%nat /\
  (1 < length [3; 1; 4; 1] / 2)%nat /\
  (exists evenK, JSArray.get (fft (evenInput [3; 1; 4; 1])) 1 = Some evenK) /\
  (exists oddK, JSArray.get (fft (oddInput [3; 1; 4; 1])) 1 = Some oddK).
Proof.
  assert (H1 : (1 <= 2)%nat) by lia.
  assert (H2 : length [3; 1; 4; 1] = (2 ^ 2)%nat) by reflexivity.
  assert (H3 : (1 < half_turns (length [3; 1; 4; 1]))%nat)
    by (vm_compute; lia).
  split; [exact H1|]. split; [exact H2|]. split; [exact H3|].
  exact (@butterfly_guard_unreachable [3; 1; 4; 1] 2%nat 1%nat H1 H2 H3).
Defined.

(* ===================================================================== *)
(** ** Properties of the Component Extractor *)

(** C8.  For a spectrum of length [M] and any sample count, the
    frequencies of the records are exactly [1, 2, ..., floor(M / 2) - 1],
    one record each, in strictly increasing order: never [0], never
    [floor(M / 2)] or more, and no record at all when [M <= 3]. *)
Theorem extractor_frequencies (spectrum : list Complex) (n : Z) :
  map frequency (getFrequencyComponents (JSArray.dense spectrum) n)
    = seq 1 (length spectrum / 2 - 1) /\
  StronglySorted lt
    (map frequency (getFrequencyComponents (JSArray.dense spectrum) n)) /\
  (forall r : FrequencyComponent,
      In r (getFrequencyComponents (JSArray.dense spectrum) n) ->
      (1 <= frequency r < length spectrum / 2)%nat) /\
  ((length spectrum <= 3)%nat ->
   getFrequencyComponents (JSArray.dense spectrum) n = []).
Proof.
  assert (Hfreq : map frequency
                    (getFrequencyComponents (JSArray.dense spectrum) n)
                  = seq 1 (length spectrum / 2 - 1)).
  { rewrite getFrequencyComponents_dense, map_map.
    cbn [expected_component frequency]. apply map_id. }
  split; [exact Hfreq|]. split; [|split].
  - rewrite Hfreq. apply seq_strictly_increasing.
  - intros r Hr. apply in_getFrequencyComponents in Hr.
    destruct Hr as [k [Hk ->]]. exact Hk.
  - intro Hshort. rewrite getFrequencyComponents_dense.
    replace (length spectrum / 2 - 1)%nat with 0%nat by lia. reflexivity.
Qed.

Lemma extractor_frequencies_witness :
  map frequency (getFrequencyComponents (JSArray.dense example_spectrum6) 6)
    = seq 1 (length example_spectrum6 / 2 - 1) /\
  StronglySorted lt
    (map frequency
         (getFrequencyComponents (JSArray.dense example_spectrum6) 6)) /\
  (forall r : FrequencyComponent,
      In r (getFrequencyComponents (JSArray.dense example_spectrum6) 6) ->
      (1 <= frequency r < length example_spectrum6 / 2)%nat) /\
  ((length example_spectrum6 <= 3)%nat ->
   getFrequencyComponents (JSArray.dense example_spectrum6) 6 = []).
Proof.
  exact (@extractor_frequencies example_spectrum6 6%Z).
Defined.

(** C10.  The result of the extractor does not depend on the sample count
    it is given. *)
Theorem sampleCount_is_ignored (fftData : JSArray.t Complex) (n1 n2 : Z) :
  getFrequencyComponents fftData n1 = getFrequencyComponents fftData n2.
Proof. reflexivity. Qed.

(** C2.  The claim asks for the empty sequence whenever the sample count
    is [<= 0].  With a sample count of [0] and a spectrum of four bins the
    extractor returns the record of bin 1: the sample count is never
    read, although the comment above the loop bound speaks of the smaller
    of the two lengths. *)
Lemma sampleCount_zero_still_emits :
  (0 <= 0)%Z /\
  getFrequencyComponents (JSArray.dense zero_spectrum4) 0
    = [component_of_bin 4 1 (mkComplex 0 0)] /\
  getFrequencyComponents (JSArray.dense zero_spectrum4) 0 <> [].
Proof.
  split; [lia|]. split; [reflexivity | discriminate].
Qed.

(** C3, as stated, fails: with four bins and a sample count of [8] the
    record of bin 1 carries a signal of four values, not eight. *)
Lemma signal_length_is_not_sampleCount :
  exists r : FrequencyComponent,
    In r (getFrequencyComponents (JSArray.dense example_spectrum4) 8) /\
    length (signal r) = 4%nat /\
    Z.of_nat (length (signal r)) <> 8%Z.
Proof.
  exists (component_of_bin 4 1 (mkComplex 1 0)).
  split; [left; reflexivity|].
  split; [reflexivity|].
  change (length (signal (component_of_bin 4 1 (mkComplex 1 0)))) with 4%nat.
  lia.
Qed.

(** C3, amended.  Each record carries a signal of exactly [M] reals, [M]
    being the length of the spectrum, with
    [signal[i] = amplitude * cos(2 pi k i / M + phase)] for [i] in
    [[0, M)], where [k] is the record's frequency. *)
Theorem signal_synthesis (spectrum : list Complex) (n : Z)
  (r : FrequencyComponent) :
  In r (getFrequencyComponents (JSArray.dense spectrum) n) ->
  length (signal r) = length spectrum /\
  forall i : nat,
    (i < length spectrum)%nat ->
    nth_error (signal r) i =
    Some (amplitude r
          * cos (2 * PI * INR (frequency r) * INR i / INR (length spectrum)
                 + phase r)).
Proof.
  intro Hr. apply in_getFrequencyComponents in Hr.
  destruct Hr as [k [Hk ->]].
  unfold expected_component. cbn [signal amplitude phase frequency].
  split.
  - rewrite length_map, length_seq. reflexivity.
  - intros i Hi. rewrite nth_error_map, nth_error_seq.
    destruct (Nat.ltb_spec i (length spectrum)); [reflexivity | lia].
Qed.

Lemma signal_synthesis_witness :
  In (component_of_bin 4 1 (mkComplex 1 0))
     (getFrequencyComponents (JSArray.dense example_spectrum4) 8) /\
  length (signal (component_of_bin 4 1 (mkComplex 1 0)))
    = length example_spectrum4 /\
  forall i : nat,
    (i < length example_spectrum4)%nat ->
    nth_error (signal (component_of_bin 4 1 (mkComplex 1 0))) i =
    Some (amplitude (component_of_bin 4 1 (mkComplex 1 0))
          * cos (2 * PI * INR (frequency (component_of_bin 4 1 (mkComplex 1 0)))
                   * INR i / INR (length example_spectrum4)
                 + phase (component_of_bin 4 1 (mkComplex 1 0)))).
Proof.
  assert (Hr : In (component_of_bin 4 1 (mkComplex 1 0))
                  (getFrequencyComponents (JSArray.dense example_spectrum4) 8))
    by (left; reflexivity).
  split; [exact Hr|].
  exact (@signal_synthesis example_spectrum4 8%Z _ Hr).
Defined.

(** C4, as stated, fails: with four bins and a sample count of [8] the
    amplitude of bin 1 is normalised by 4, the length of the spectrum, not
    by 8. *)
Lemma amplitude_is_not_normalised_by_sampleCount :
  exists (r : FrequencyComponent) (bin : Complex),
    In r (getFrequencyComponents (JSArray.dense example_spectrum4) 8) /\
    nth_error example_spectrum4 (frequency r) = Some bin /\
    amplitude r = 1 / 2 /\
    amplitude r <> 2 * sqrt (re bin * re bin + im bin * im bin) / IZR 8.
Proof.
  exists (component_of_bin 4 1 (mkComplex 1 0)), (mkComplex 1 0).
  split; [left; reflexivity|].
  split; [reflexivity|].
  assert (Hamp : amplitude (component_of_bin 4 1 (mkComplex 1 0)) = 1 / 2).
  { cbn [component_of_bin amplitude re im].
    replace (1 * 1 + 0 * 0) with 1 by ring.
    rewrite sqrt_1. simpl INR. field. }
  split; [exact Hamp|].
  rewrite Hamp. cbn [re im].
  replace (1 * 1 + 0 * 0) with 1 by ring.
  rewrite sqrt_1. lra.
Qed.

(** C4, amended.  The record emitted for bin [k] has amplitude
    [2 * sqrt(re^2 + im^2) / M], with [M] the length of the spectrum, and
    phase [atan2(im, re)] of that bin. *)
Theorem amplitude_and_phase (spectrum : list Complex) (n : Z)
  (r : FrequencyComponent) :
  In r (getFrequencyComponents (JSArray.dense spectrum) n) ->
  exists bin : Complex,
    nth_error spectrum (frequency r) = Some bin /\
    amplitude r
      = 2 * sqrt (re bin * re bin + im bin * im bin) / INR (length spectrum) /\
    phase r = atan2 (im bin) (re bin).
Proof.
  intro Hr. apply in_getFrequencyComponents in Hr.
  destruct Hr as [k [Hk ->]].
  exists (nth k spectrum (mkComplex 0 0)).
  unfold expected_component. cbn [amplitude phase frequency].
  split; [|split; reflexivity].
  apply nth_error_nth'. lia.
Qed.

Lemma amplitude_and_phase_witness :
  In (component_of_bin 4 1 (mkComplex 1 0))
     (getFrequencyComponents (JSArray.dense example_spectrum4) 8) /\
  exists bin : Complex,
    nth_error example_spectrum4
              (frequency (component_of_bin 4 1 (mkComplex 1 0))) = Some bin /\
    amplitude (component_of_bin 4 1 (mkComplex 1 0))
      = 2 * sqrt (re bin * re bin + im bin * im bin)
        / INR (length example_spectrum4) /\
    phase (component_of_bin 4 1 (mkComplex 1 0)) = atan2 (im bin) (re bin).
Proof.
  assert (Hr : In (component_of_bin 4 1 (mkComplex 1 0))
                  (getFrequencyComponents (JSArray.dense example_spectrum4) 8))
    by (left; reflexivity).
  split; [exact Hr|].
  exact (@amplitude_and_phase example_spectrum4 8%Z _ Hr).
Defined.

(* ===================================================================== *)
(** ** Further properties of the Spectral Transform *)

Lemma big_sum_shift (f : nat -> R) (n : nat) :
  big_sum f (S n) = f 0%nat + big_sum (fun t => f (S t)) n.
Proof.
  induction n as [|n IH].
  - simpl. lra.
  - change (big_sum f (S (S n))) with (big_sum f (S n) + f (S n)).
    rewrite IH. simpl. lra.
Qed.

Lemma big_sum_sample (l : list R) :
  big_sum (sample l) (length l) = sum_list l.
Proof.
  induction l as [|x l IH].
  - reflexivity.
  - cbn [length]. rewrite big_sum_shift. cbn [sum_list fold_right].
    fold (sum_list l). rewrite <- IH. reflexivity.
Qed.

Lemma big_sum_zero (n : nat) : big_sum (fun _ => 0) n = 0.
Proof. induction n as [|n IH]; simpl; [|rewrite IH]; lra. Qed.

Lemma cos_sum_bin0 (x : nat -> R) (n : nat) :
  cos_sum x 0 n = big_sum x n.
Proof.
  apply big_sum_ext. intros t _.
  replace (2 * PI * INR 0 * INR t / INR n) with 0
    by (simpl INR; unfold Rdiv; ring).
  rewrite cos_0. ring.
Qed.

Lemma sin_sum_bin0 (x : nat -> R) (n : nat) :
  sin_sum x 0 n = 0.
Proof.
  unfold sin_sum. rewrite <- (big_sum_zero n).
  apply big_sum_ext. intros t _.
  replace (2 * PI * INR 0 * INR t / INR n) with 0
    by (simpl INR; unfold Rdiv; ring).
  rewrite sin_0. ring.
Qed.

Lemma big_sum_even_part (input : list R) (h : nat) :
  length input = (2 * h)%nat ->
  big_sum (even_part (sample input)) h = sum_list (evenInput input).
Proof.
  intro Hlen. rewrite <- big_sum_sample, length_evenInput.
  replace ((length input + 1) / 2)%nat with h by lia.
  apply big_sum_ext. intros t Ht. symmetry.
  apply sample_evenInput. lia.
Qed.

Lemma big_sum_odd_part (input : list R) (h : nat) :
  length input = (2 * h)%nat ->
  big_sum (odd_part (sample input)) h = sum_list (oddInput input).
Proof.
  intro Hlen. rewrite <- big_sum_sample, length_oddInput.
  replace (length input / 2)%nat with h by lia.
  apply big_sum_ext. intros t Ht. symmetry.
  apply sample_oddInput. lia.
Qed.

(** X1.  The DC bin: bin 0 of [fft] is the sum of the samples, with
    imaginary part 0. *)
Theorem fft_dc_bin (input : list R) :
  (1 <= length input)%nat ->
  js_array_length_ok (length input) ->
  JSArray.get (fft input) 0 = Some (mkComplex (sum_list input) 0).
Proof.
  intros H1 Hok.
  rewrite (fft_regular (regular_bounded Hok) input eq_refl H1).
  rewrite get_dense, nth_error_dft_spec by lia.
  rewrite dft_spec_bin, cos_sum_bin0, sin_sum_bin0, big_sum_sample.
  do 2 f_equal. ring.
Qed.

Lemma fft_dc_bin_witness :
  (1 <= length [1; 2; 3])%nat /\
  js_array_length_ok (length [1; 2; 3]) /\
  JSArray.get (fft [1; 2; 3]) 0 = Some (mkComplex (sum_list [1; 2; 3]) 0).
Proof.
  assert (H1 : (1 <= length [1; 2; 3])%nat) by (simpl; lia).
  assert (H2 : js_array_length_ok (length [1; 2; 3]))
    by (unfold js_array_length_ok; simpl; lia).
  split; [exact H1|]. split; [exact H2|].
  exact (@fft_dc_bin [1; 2; 3] H1 H2).
Defined.

(** X2.  The Nyquist bin: for an even length [N = 2 * h], bin [h] of [fft]
    is the sum of the samples of even index minus the sum of those of odd
    index, with imaginary part 0. *)
Theorem fft_nyquist_bin (input : list R) (h : nat) :
  (1 <= h)%nat ->
  length input = (2 * h)%nat ->
  js_array_length_ok (length input) ->
  JSArray.get (fft input) h =
  Some (mkComplex (sum_list (evenInput input) - sum_list (oddInput input)) 0).
Proof.
  intros Hh Hlen Hok.
  rewrite (fft_regular (regular_bounded Hok) input eq_refl) by lia.
  rewrite get_dense, nth_error_dft_spec by lia.
  rewrite dft_spec_bin, Hlen.
  change h with (0 + h)%nat at 1 3.
  rewrite cos_sum_high, sin_sum_high by lia.
  rewrite !cos_sum_bin0, !sin_sum_bin0.
  rewrite (@big_sum_even_part input h Hlen), (@big_sum_odd_part input h Hlen).
  unfold combine_angle.
  replace (2 * PI * INR 0 / INR (2 * h)) with 0
    by (simpl INR; unfold Rdiv; ring).
  rewrite cos_0, sin_0. f_equal. f_equal; ring.
Qed.

Lemma fft_nyquist_bin_witness :
  (1 <= 2)%nat /\
  length [3; 1; 4; 1] = (2 * 2)%nat /\
  js_array_length_ok (length [3; 1; 4; 1]) /\
  JSArray.get (fft [3; 1; 4; 1]) 2 =
  Some (mkComplex (sum_list (evenInput [3; 1; 4; 1])
                   - sum_list (oddInput [3; 1; 4; 1])) 0).
Proof.
  assert (H1 : (1 <= 2)%nat) by lia.
  assert (H2 : length [3; 1; 4; 1] = (2 * 2)%nat) by reflexivity.
  assert (H3 : js_array_length_ok (length [3; 1; 4; 1]))
    by (unfold js_array_length_ok; simpl; lia).
  split; [exact H1|]. split; [exact H2|]. split; [exact H3|].
  exact (@fft_nyquist_bin [3; 1; 4; 1] 2%nat H1 H2 H3).
Defined.

Lemma length_mix (a b : R) (x y : list R) :
  length x = length y -> length (mix a b x y) = length x.
Proof.
  intro H. unfold mix. rewrite length_map, length_combine. lia.
Qed.

Lemma sample_mix (a b : R) (x y : list R) (t : nat) :
  length x = length y -> (t < length x)%nat ->
  sample (mix a b x y) t = a * sample x t + b * sample y t.
Proof.
  intros Hlen Ht. unfold sample, mix.
  rewrite (nth_indep _ 0 ((fun p => a * fst p + b * snd p) (0, 0)))
    by (rewrite length_map, length_combine; lia).
  rewrite (map_nth (fun p => a * fst p + b * snd p)).
  rewrite combine_nth by exact Hlen. reflexivity.
Qed.

Lemma cos_sum_mix (a b : R) (x y : list R) (k : nat) :
  length x = length y ->
  cos_sum (sample (mix a b x y)) k (length x) =
  a * cos_sum (sample x) k (length x) + b * cos_sum (sample y) k (length x).
Proof.
  intro Hlen. unfold cos_sum.
  rewrite !(Rmult_comm a), !(Rmult_comm b).
  rewrite <- !big_sum_scale, <- big_sum_plus.
  apply big_sum_ext. intros t Ht.
  rewrite sample_mix by assumption. ring.
Qed.

Lemma sin_sum_mix (a b : R) (x y : list R) (k : nat) :
  length x = length y ->
  sin_sum (sample (mix a b x y)) k (length x) =
  a * sin_sum (sample x) k (length x) + b * sin_sum (sample y) k (length x).
Proof.
  intro Hlen. unfold sin_sum.
  rewrite !(Rmult_comm a), !(Rmult_comm b).
  rewrite <- !big_sum_scale, <- big_sum_plus.
  apply big_sum_ext. intros t Ht.
  rewrite sample_mix by assumption. ring.
Qed.

(** X3.  Linearity: bin [k] of the transform of [a * x + b * y] is [a]
    times bin [k] of the transform of [x] plus [b] times that of [y]. *)
Theorem fft_linear (a b : R) (x y : list R) (k : nat) :
  length x = length y ->
  js_array_length_ok (length x) ->
  (k < length x)%nat ->
  exists X Y : Complex,
    JSArray.get (fft x) k = Some X /\
    JSArray.get (fft y) k = Some Y /\
    JSArray.get (fft (mix a b x y)) k =
    Some (mkComplex (a * re X + b * re Y) (a * im X + b * im Y)).
Proof.
  intros Hlen Hok Hk.
  assert (Hm : length (mix a b x y) = length x) by (apply length_mix; exact Hlen).
  rewrite (fft_regular (regular_bounded Hok) x eq_refl) by lia.
  rewrite (fft_regular (regular_bounded Hok) y (eq_sym Hlen)) by lia.
  rewrite (fft_regular (regular_bounded Hok) (mix a b x y) Hm) by lia.
  do 2 eexists. rewrite !get_dense, !nth_error_dft_spec by lia.
  split; [reflexivity|]. split; [reflexivity|].
  rewrite !dft_spec_bin. cbn [re im]. rewrite Hm, <- Hlen.
  rewrite cos_sum_mix, sin_sum_mix by exact Hlen.
  do 2 f_equal. ring.
Qed.

Lemma fft_linear_witness :
  length [1; 2; 3] = length [4; 5; 6] /\
  js_array_length_ok (length [1; 2; 3]) /\
  (1 < length [1; 2; 3])%nat /\
  exists X Y : Complex,
    JSArray.get (fft [1; 2; 3]) 1 = Some X /\
    JSArray.get (fft [4; 5; 6]) 1 = Some Y /\
    JSArray.get (fft (mix 2 (-1) [1; 2; 3] [4; 5; 6])) 1 =
    Some (mkComplex (2 * re X + -1 * re Y) (2 * im X + -1 * im Y)).
Proof.
  assert (H1 : length [1; 2; 3] = length [4; 5; 6]) by reflexivity.
  assert (H2 : js_array_length_ok (length [1; 2; 3]))
    by (unfold js_array_length_ok; simpl; lia).
  assert (H3 : (1 < length [1; 2; 3])%nat) by (simpl; lia).
  split; [exact H1|]. split; [exact H2|]. split; [exact H3|].
  exact (@fft_linear 2 (-1) [1; 2; 3] [4; 5; 6] 1%nat H1 H2 H3).
Defined.

(* ===================================================================== *)
(** ** Phase and modulus of a bin *)

Lemma atan2_range (y x : R) : - PI < atan2 y x <= PI.
Proof.
  pose proof PI_RGT_0 as Hpi.
  unfold atan2.
  destruct (Rlt_dec 0 x) as [Hx|Hx].
  - pose proof (atan_bound (y / x)). lra.
  - destruct (Rlt_dec x 0) as [Hx'|Hx'].
    + pose proof (atan_bound (y / x)) as Hb.
      destruct (Rlt_dec y 0) as [Hy|Hy].
      * assert (Hu : 0 < y / x).
        { unfold Rdiv. replace (y * / x) with ((- y) * / (- x))
            by (field; lra).
          apply Rmult_lt_0_compat; [lra|]. apply Rinv_0_lt_compat. lra. }
        apply atan_increasing in Hu. rewrite atan_0 in Hu. lra.
      * assert (Hu : atan (y / x) <= 0).
        { destruct (Req_dec y 0) as [->|Hy0].
          - unfold Rdiv. rewrite Rmult_0_l, atan_0. lra.
          - assert (Hneg : y / x < 0).
            { unfold Rdiv. replace (y * / x) with (- (y * / (- x)))
                by (field; lra).
              assert (0 < y * / (- x)); [|lra].
              apply Rmult_lt_0_compat; [lra|].
              apply Rinv_0_lt_compat. lra. }
            apply atan_increasing in Hneg. rewrite atan_0 in Hneg. lra. }
        lra.
    + destruct (Rlt_dec 0 y); [lra|]. destruct (Rlt_dec y 0); lra.
Qed.

Lemma sqrt_ratio (p y : R) :
  0 < p -> sqrt (1 + (y / p)²) = sqrt (p * p + y * y) / p.
Proof.
  intro Hp.
  assert (Hsq : 0 <= p * p + y * y) by nra.
  apply sqrt_lem_1.
  - unfold Rsqr. nra.
  - apply Rmult_le_pos; [apply sqrt_pos|].
    left. apply Rinv_0_lt_compat. exact Hp.
  - unfold Rsqr.
    replace (sqrt (p * p + y * y) / p * (sqrt (p * p + y * y) / p))
      with (sqrt (p * p + y * y) * sqrt (p * p + y * y) / (p * p))
      by (field; lra).
    rewrite sqrt_sqrt by exact Hsq. field. lra.
Qed.

Lemma modulus_positive (x y : R) : x <> 0 -> 0 < sqrt (x * x + y * y).
Proof. intro Hx. apply sqrt_lt_R0. nra. Qed.

(** The modulus and the phase give back the two parts of the bin. *)
Lemma polar_cos (x y : R) :
  sqrt (x * x + y * y) * cos (atan2 y x) = x.
Proof.
  unfold atan2.
  destruct (Rlt_dec 0 x) as [Hx|Hx].
  - rewrite cos_atan, sqrt_ratio by exact Hx.
    pose proof (@modulus_positive x y). field. lra.
  - destruct (Rlt_dec x 0) as [Hx'|Hx'].
    + assert (Hr : 0 < sqrt (x * x + y * y)) by (apply modulus_positive; lra).
      assert (Hc : cos (atan (y / x)) = - x / sqrt (x * x + y * y)).
      { rewrite cos_atan.
        replace ((y / x)²) with ((y / (- x))²) by (unfold Rsqr; field; lra).
        rewrite sqrt_ratio by lra.
        replace (- x * - x) with (x * x) by ring. field. lra. }
      destruct (Rlt_dec y 0).
      * unfold Rminus. rewrite cos_plus, cos_neg, sin_neg, cos_PI, sin_PI, Hc.
        field. lra.
      * rewrite cos_plus, cos_PI, sin_PI, Hc. field. lra.
    + assert (x = 0) by lra. subst x.
      destruct (Rlt_dec 0 y); [rewrite cos_PI2; ring|].
      destruct (Rlt_dec y 0); [rewrite cos_neg, cos_PI2; ring|].
      assert (y = 0) by lra. subst y.
      replace (0 * 0 + 0 * 0) with 0 by ring. rewrite sqrt_0. ring.
Qed.

Lemma polar_sin (x y : R) :
  sqrt (x * x + y * y) * sin (atan2 y x) = y.
Proof.
  unfold atan2.
  destruct (Rlt_dec 0 x) as [Hx|Hx].
  - rewrite sin_atan, sqrt_ratio by exact Hx.
    pose proof (@modulus_positive x y). field. lra.
  - destruct (Rlt_dec x 0) as [Hx'|Hx'].
    + assert (Hr : 0 < sqrt (x * x + y * y)) by (apply modulus_positive; lra).
      assert (Hs : sin (atan (y / x)) = - y / sqrt (x * x + y * y)).
      { rewrite sin_atan.
        replace ((y / x)²) with ((y / (- x))²) by (unfold Rsqr; field; lra).
        rewrite sqrt_ratio by lra.
        replace (- x * - x) with (x * x) by ring. field. lra. }
      destruct (Rlt_dec y 0).
      * unfold Rminus. rewrite sin_plus, cos_neg, sin_neg, cos_PI, sin_PI, Hs.
        field. lra.
      * rewrite sin_plus, cos_PI, sin_PI, Hs. field. lra.
    + assert (x = 0) by lra. subst x.
      replace (0 * 0 + y * y) with (y * y) by ring.
      destruct (Rlt_dec 0 y) as [Hy|Hy].
      { rewrite sin_PI2, sqrt_square by lra. ring. }
      destruct (Rlt_dec y 0) as [Hy'|Hy'].
      { rewrite sin_neg, sin_PI2.
        replace (y * y) with (- y * - y) by ring.
        rewrite sqrt_square by lra. ring. }
      assert (y = 0) by lra. subst y.
      replace (0 * 0) with 0 by ring. rewrite sqrt_0. ring.
Qed.

(* ===================================================================== *)
(** ** Further properties of the Component Extractor *)

Lemma components_loop_any (fftData : JSArray.t Complex) (M : nat)
  (l : list nat) (acc : list FrequencyComponent) :
  fold_left (components_step fftData M) l acc =
  acc ++ flat_map (fun k => match JSArray.get fftData k with
                            | Some bin => [component_of_bin M k bin]
                            | None => []
                            end) l.
Proof.
  revert acc. induction l as [|k l IH]; intro acc; cbn [fold_left flat_map].
  - symmetry. apply app_nil_r.
  - rewrite IH. unfold components_step.
    destruct (JSArray.get fftData k); [rewrite <- app_assoc|]; reflexivity.
Qed.

Lemma getFrequencyComponents_any (fftData : JSArray.t Complex) (n : Z) :
  getFrequencyComponents fftData n =
  flat_map (fun k => match JSArray.get fftData k with
                     | Some bin => [component_of_bin (length fftData) k bin]
                     | None => []
                     end)
           (seq 1 (length fftData / 2 - 1)).
Proof.
  unfold getFrequencyComponents.
  destruct (Nat.eqb_spec (length fftData) 0) as [H0|H0].
  - rewrite H0. reflexivity.
  - rewrite components_loop_any. reflexivity.
Qed.

Lemma in_getFrequencyComponents_any (fftData : JSArray.t Complex) (n : Z)
  (r : FrequencyComponent) :
  In r (getFrequencyComponents fftData n) ->
  exists (k : nat) (bin : Complex),
    (1 <= k < length fftData / 2)%nat /\
    JSArray.get fftData k = Some bin /\
    r = component_of_bin (length fftData) k bin.
Proof.
  rewrite getFrequencyComponents_any, in_flat_map.
  intros [k [Hk Hr]]. apply in_seq in Hk.
  destruct (JSArray.get fftData k) as [bin|] eqn:Hget; [|contradiction].
  destruct Hr as [Hr|[]]. exists k, bin.
  split; [lia|]. split; [exact Hget | congruence].
Qed.

Lemma signal_of_component (M k : nat) (bin : Complex) :
  signal (component_of_bin M k bin) =
  map (fun i => amplitude (component_of_bin M k bin)
                * cos (2 * PI * INR k * INR i / INR M
                       + phase (component_of_bin M k bin)))
      (seq 0 M).
Proof.
  cbn [component_of_bin signal amplitude phase].
  unfold JSArray.mapi. rewrite mapi_from_repeat. reflexivity.
Qed.

(** X4.  On any array, holes included, the extractor emits one record for
    each defined bin of index in [[1, floor(M / 2))], in increasing order
    of index, and skips the holes. *)
Theorem extractor_skips_holes (fftData : JSArray.t Complex) (n : Z) :
  map frequency (getFrequencyComponents fftData n) = defined_bins fftData.
Proof.
  rewrite getFrequencyComponents_any. unfold defined_bins.
  induction (seq 1 (length fftData / 2 - 1)) as [|k l IH].
  - reflexivity.
  - cbn [flat_map filter]. rewrite map_app, IH.
    destruct (JSArray.get fftData k); reflexivity.
Qed.

(** X5.  Every record has a non-negative amplitude, and no value of its
    signal exceeds the amplitude in absolute value. *)
Theorem amplitude_bounds_signal (fftData : JSArray.t Complex) (n : Z)
  (r : FrequencyComponent) (v : R) :
  In r (getFrequencyComponents fftData n) ->
  In v (signal r) ->
  0 <= amplitude r /\ Rabs v <= amplitude r.
Proof.
  intros Hr Hv.
  apply in_getFrequencyComponents_any in Hr.
  destruct Hr as (k & bin & Hk & _ & ->).
  assert (Ha : 0 <= amplitude (component_of_bin (length fftData) k bin)).
  { cbn [component_of_bin amplitude].
    assert (0 < INR (length fftData)) by (apply lt_0_INR; lia).
    apply Rmult_le_pos.
    - apply Rmult_le_pos; [apply sqrt_pos | lra].
    - left. apply Rinv_0_lt_compat. assumption. }
  split; [exact Ha|].
  rewrite signal_of_component in Hv. apply in_map_iff in Hv.
  destruct Hv as [i [<- _]].
  rewrite Rabs_mult, (Rabs_pos_eq _ Ha).
  rewrite <- (Rmult_1_r (amplitude _)) at 2.
  apply Rmult_le_compat_l; [exact Ha|].
  apply Rabs_le. apply COS_bound.
Qed.

Lemma amplitude_bounds_signal_witness :
  In (component_of_bin 4 1 (mkComplex 1 0))
     (getFrequencyComponents (JSArray.dense example_spectrum4) 8) /\
  In (amplitude (component_of_bin 4 1 (mkComplex 1 0))
      * cos (2 * PI * INR 1 * INR 0 / INR 4
             + phase (component_of_bin 4 1 (mkComplex 1 0))))
     (signal (component_of_bin 4 1 (mkComplex 1 0))) /\
  0 <= amplitude (component_of_bin 4 1 (mkComplex 1 0)) /\
  Rabs (amplitude (component_of_bin 4 1 (mkComplex 1 0))
        * cos (2 * PI * INR 1 * INR 0 / INR 4
               + phase (component_of_bin 4 1 (mkComplex 1 0))))
  <= amplitude (component_of_bin 4 1 (mkComplex 1 0)).
Proof.
  assert (Hr : In (component_of_bin 4 1 (mkComplex 1 0))
                  (getFrequencyComponents (JSArray.dense example_spectrum4) 8))
    by (left; reflexivity).
  assert (Hv : In (amplitude (component_of_bin 4 1 (mkComplex 1 0))
                   * cos (2 * PI * INR 1 * INR 0 / INR 4
                          + phase (component_of_bin 4 1 (mkComplex 1 0))))
                  (signal (component_of_bin 4 1 (mkComplex 1 0))))
    by (left; reflexivity).
  split; [exact Hr|]. split; [exact Hv|].
  exact (@amplitude_bounds_signal _ 8%Z _ _ Hr Hv).
Defined.

(** X6.  The phase of every record lies in [(-pi, pi]], with [Math.atan2]
    read on the reals. *)
Theorem phase_in_range (fftData : JSArray.t Complex) (n : Z)
  (r : FrequencyComponent) :
  In r (getFrequencyComponents fftData n) ->
  - PI < phase r <= PI.
Proof.
  intro Hr. apply in_getFrequencyComponents_any in Hr.
  destruct Hr as (k & bin & _ & _ & ->).
  cbn [component_of_bin phase]. apply atan2_range.
Qed.

Lemma phase_in_range_witness :
  In (component_of_bin 4 1 (mkComplex 1 0))
     (getFrequencyComponents (JSArray.dense example_spectrum4) 8) /\
  - PI < phase (component_of_bin 4 1 (mkComplex 1 0)) <= PI.
Proof.
  assert (Hr : In (component_of_bin 4 1 (mkComplex 1 0))
                  (getFrequencyComponents (JSArray.dense example_spectrum4) 8))
    by (left; reflexivity).
  split; [exact Hr|].
  exact (@phase_in_range _ 8%Z _ Hr).
Defined.

(** X7.  The synthesised wave is the share of its bin in the inverse
    transform: for the record of bin [k = (re, im)] of an array of length
    [M], [signal[i] = (2 / M) * (re * cos(2 pi k i / M)
    - im * sin(2 pi k i / M))]. *)
Theorem signal_is_inverse_transform_share (fftData : JSArray.t Complex)
  (n : Z) (r : FrequencyComponent) (i : nat) :
  In r (getFrequencyComponents fftData n) ->
  (i < length fftData)%nat ->
  exists bin : Complex,
    JSArray.get fftData (frequency r) = Some bin /\
    nth_error (signal r) i =
    Some (2 / INR (length fftData)
          * (re bin * cos (2 * PI * INR (frequency r) * INR i
                           / INR (length fftData))
             - im bin * sin (2 * PI * INR (frequency r) * INR i
                             / INR (length fftData)))).
Proof.
  intros Hr Hi. apply in_getFrequencyComponents_any in Hr.
  destruct Hr as (k & bin & Hk & Hget & ->).
  exists bin. split; [exact Hget|].
  rewrite signal_of_component, nth_error_map, nth_error_seq.
  destruct (Nat.ltb_spec i (length fftData)); [|lia].
  cbn [option_map component_of_bin amplitude phase frequency Nat.add].
  f_equal. rewrite cos_plus.
  pose proof (polar_cos (re bin) (im bin)) as Hc.
  pose proof (polar_sin (re bin) (im bin)) as Hs.
  set (m := sqrt (re bin * re bin + im bin * im bin)) in *.
  set (p := atan2 (im bin) (re bin)) in *.
  rewrite <- Hc, <- Hs.
  unfold Rdiv. ring.
Qed.

Lemma signal_is_inverse_transform_share_witness :
  In (component_of_bin 4 1 (mkComplex 1 0))
     (getFrequencyComponents (JSArray.dense example_spectrum4) 8) /\
  (3 < length (JSArray.dense example_spectrum4))%nat /\
  exists bin : Complex,
    JSArray.get (JSArray.dense example_spectrum4)
                (frequency (component_of_bin 4 1 (mkComplex 1 0))) = Some bin /\
    nth_error (signal (component_of_bin 4 1 (mkComplex 1 0))) 3 =
    Some (2 / INR (length (JSArray.dense example_spectrum4))
          * (re bin
             * cos (2 * PI
                    * INR (frequency (component_of_bin 4 1 (mkComplex 1 0)))
                    * INR 3 / INR (length (JSArray.dense example_spectrum4)))
             - im bin
               * sin (2 * PI
                      * INR (frequency (component_of_bin 4 1 (mkComplex 1 0)))
                      * INR 3
                      / INR (length (JSArray.dense example_spectrum4))))).
Proof.
  assert (Hr : In (component_of_bin 4 1 (mkComplex 1 0))
                  (getFrequencyComponents (JSArray.dense example_spectrum4) 8))
    by (left; reflexivity).
  assert (Hi : (3 < length (JSArray.dense example_spectrum4))%nat)
    by (simpl; lia).
  split; [exact Hr|]. split; [exact Hi|].
  exact (@signal_is_inverse_transform_share _ 8%Z _ 3%nat Hr Hi).
Defined.

(* ===================================================================== *)
(** ** The pipeline of [App.tsx] *)

Lemma components_of_signal (signal : list R) :
  js_array_length_ok (length signal) ->
  components signal =
  map (expected_component (dft_spec signal))
      (seq 1 (length signal / 2 - 1)).
Proof.
  intro Hok. unfold components, fftResult.
  destruct (Nat.ltb_spec (length signal) 2) as [Hlt|Hge].
  - cbn [length Nat.eqb].
    replace (length signal / 2 - 1)%nat with 0%nat by lia. reflexivity.
  - rewrite (fft_regular (regular_bounded Hok) signal eq_refl) by lia.
    rewrite length_dense, length_dft_spec.
    destruct (Nat.eqb_spec (length signal) 0); [lia|].
    rewrite getFrequencyComponents_dense, length_dft_spec. reflexivity.
Qed.

(** X8.  Along the pipeline of the application, where the extractor
    receives the transform of the signal and the signal's length [N], the
    records are those of bins [1 .. floor(N / 2) - 1] (none for [N < 4]);
    the record of bin [k] carries [N] signal values, the amplitude
    [2 * |X_k| / N] and the phase [atan2(im X_k, re X_k)], where [X_k] is
    bin [k] of the discrete Fourier transform of the signal. *)
Theorem pipeline_components (samples : list R) :
  js_array_length_ok (length samples) ->
  map frequency (components samples) = seq 1 (length samples / 2 - 1) /\
  forall r : FrequencyComponent,
    In r (components samples) ->
    (1 <= frequency r < length samples / 2)%nat /\
    length (signal r) = length samples /\
    amplitude r =
      2 * sqrt (dft_re_spec samples (frequency r)
                * dft_re_spec samples (frequency r)
                + dft_im_spec samples (frequency r)
                  * dft_im_spec samples (frequency r))
      / INR (length samples) /\
    phase r = atan2 (dft_im_spec samples (frequency r))
                    (dft_re_spec samples (frequency r)).
Proof.
  intros Hok. rewrite (components_of_signal samples Hok).
  split.
  { rewrite map_map. cbn [expected_component frequency]. apply map_id. }
  intros r Hr.
  apply in_map_iff in Hr. destruct Hr as [k [<- Hk]]. apply in_seq in Hk.
  unfold expected_component. cbn [frequency signal amplitude phase].
  rewrite length_map, length_seq, length_dft_spec.
  rewrite (nth_error_nth _ _ (mkComplex 0 0)
             (nth_error_dft_spec samples (k := k) ltac:(lia))).
  cbn [re im].
  split; [lia|]. repeat split; reflexivity.
Qed.

Lemma pipeline_components_witness :
  js_array_length_ok (length example_signal6) /\
  map frequency (components example_signal6)
    = seq 1 (length example_signal6 / 2 - 1) /\
  forall r : FrequencyComponent,
    In r (components example_signal6) ->
    (1 <= frequency r < length example_signal6 / 2)%nat /\
    length (signal r) = length example_signal6 /\
    amplitude r =
      2 * sqrt (dft_re_spec example_signal6 (frequency r)
                * dft_re_spec example_signal6 (frequency r)
                + dft_im_spec example_signal6 (frequency r)
                  * dft_im_spec example_signal6 (frequency r))
      / INR (length example_signal6) /\
    phase r = atan2 (dft_im_spec example_signal6 (frequency r))
                    (dft_re_spec example_signal6 (frequency r)).
Proof.
  assert (Hok : js_array_length_ok (length example_signal6))
    by (unfold js_array_length_ok; simpl; lia).
  split; [exact Hok|].
  exact (@pipeline_components example_signal6 Hok).
Defined.

(* ===================================================================== *)
(** ** Sums of sampled cosines and sines *)

Section ArithmeticAngles.

Variables theta phi : R.

Lemma sum_cos_arith (n : nat) :
  2 * sin (theta / 2) * big_sum (fun t => cos (INR t * theta + phi)) n =
  sin ((INR n - 1 / 2) * theta + phi) - sin (phi - theta / 2).
Proof.
  induction n as [|n IH].
  - cbn [big_sum]. simpl INR.
    replace ((0 - 1 / 2) * theta + phi) with (phi - theta / 2) by field.
    ring.
  - cbn [big_sum]. rewrite Rmult_plus_distr_l, IH, S_INR.
    replace ((INR n + 1 - 1 / 2) * theta + phi)
      with ((INR n * theta + phi) + theta / 2) by field.
    replace ((INR n - 1 / 2) * theta + phi)
      with ((INR n * theta + phi) - theta / 2) by field.
    rewrite sin_plus, (sin_minus (INR n * theta + phi)). ring.
Qed.

Lemma sum_sin_arith (n : nat) :
  2 * sin (theta / 2) * big_sum (fun t => sin (INR t * theta + phi)) n =
  cos (phi - theta / 2) - cos ((INR n - 1 / 2) * theta + phi).
Proof.
  induction n as [|n IH].
  - cbn [big_sum]. simpl INR.
    replace ((0 - 1 / 2) * theta + phi) with (phi - theta / 2) by field.
    ring.
  - cbn [big_sum]. rewrite Rmult_plus_distr_l, IH, S_INR.
    replace ((INR n + 1 - 1 / 2) * theta + phi)
      with ((INR n * theta + phi) + theta / 2) by field.
    replace ((INR n - 1 / 2) * theta + phi)
      with ((INR n * theta + phi) - theta / 2) by field.
    rewrite cos_plus, (cos_minus (INR n * theta + phi)). ring.
Qed.

End ArithmeticAngles.

Section Orthogonality.

Variables N m : nat.
Variable phi : R.
Hypothesis m_pos : (0 < m)%nat.
Hypothesis m_lt : (m < N)%nat.

Lemma half_step_sin_nonzero : sin (2 * PI * INR m / INR N / 2) <> 0.
Proof.
  assert (HN : 0 < INR N) by (apply lt_0_INR; lia).
  assert (Hm : 0 < INR m) by (apply lt_0_INR; lia).
  assert (Hlt : INR m < INR N) by (apply lt_INR; exact m_lt).
  pose proof PI_RGT_0 as Hpi.
  replace (2 * PI * INR m / INR N / 2) with (PI * (INR m / INR N))
    by (field; lra).
  assert (H0 : 0 < INR m / INR N)
    by (apply Rdiv_lt_0_compat; assumption).
  assert (H1 : INR m / INR N < 1).
  { apply (Rmult_lt_reg_r (INR N)); [exact HN|].
    unfold Rdiv. rewrite Rmult_assoc, Rinv_l by lra. lra. }
  apply Rgt_not_eq. apply sin_gt_0; nra.
Qed.

Lemma full_turn_angle :
  (INR N - 1 / 2) * (2 * PI * INR m / INR N) + phi =
  phi - 2 * PI * INR m / INR N / 2 + 2 * INR m * PI.
Proof. field. apply not_0_INR. lia. Qed.

(** Over a whole number of turns, the samples of a cosine and of a sine
    add up to zero. *)
Lemma sum_cos_vanishes :
  big_sum (fun t => cos (2 * PI * INR m * INR t / INR N + phi)) N = 0.
Proof.
  assert (HN : INR N <> 0) by (apply not_0_INR; lia).
  apply (Rmult_eq_reg_l (2 * sin (2 * PI * INR m / INR N / 2))).
  - rewrite Rmult_0_r.
    rewrite (big_sum_ext _
               (fun t => cos (INR t * (2 * PI * INR m / INR N) + phi)))
      by (intros; f_equal; field; exact HN).
    rewrite sum_cos_arith, full_turn_angle, sin_period. ring.
  - pose proof half_step_sin_nonzero. lra.
Qed.

Lemma sum_sin_vanishes :
  big_sum (fun t => sin (2 * PI * INR m * INR t / INR N + phi)) N = 0.
Proof.
  assert (HN : INR N <> 0) by (apply not_0_INR; lia).
  apply (Rmult_eq_reg_l (2 * sin (2 * PI * INR m / INR N / 2))).
  - rewrite Rmult_0_r.
    rewrite (big_sum_ext _
               (fun t => sin (INR t * (2 * PI * INR m / INR N) + phi)))
      by (intros; f_equal; field; exact HN).
    rewrite sum_sin_arith, full_turn_angle, cos_period. ring.
  - pose proof half_step_sin_nonzero. lra.
Qed.

End Orthogonality.

(* ===================================================================== *)
(** ** The transform of a sampled tone *)

Lemma big_sum_const (c : R) (n : nat) : big_sum (fun _ => c) n = INR n * c.
Proof.
  induction n as [|n IH].
  - simpl. ring.
  - cbn [big_sum]. rewrite IH, S_INR. ring.
Qed.

Lemma length_tone (N f : nat) (A phi : R) : length (tone N f A phi) = N.
Proof. unfold tone. rewrite length_map, length_seq. reflexivity. Qed.

Lemma sample_tone (N f : nat) (A phi : R) (t : nat) :
  (t < N)%nat ->
  sample (tone N f A phi) t = A * cos (2 * PI * INR f * INR t / INR N + phi).
Proof.
  intro Ht. unfold sample, tone.
  rewrite (nth_indep _ 0
             ((fun t => A * cos (2 * PI * INR f * INR t / INR N + phi)) 0%nat))
    by (rewrite length_map, length_seq; exact Ht).
  rewrite (map_nth (fun t => A * cos (2 * PI * INR f * INR t / INR N + phi))).
  rewrite seq_nth by exact Ht. reflexivity.
Qed.

Section ToneBins.

Variables N f k : nat.
Variables A phi : R.
Hypothesis f_pos : (1 <= f)%nat.
Hypothesis f_low : (2 * f < N)%nat.
Hypothesis k_pos : (1 <= k)%nat.
Hypothesis k_low : (2 * k < N)%nat.

Lemma N_nonzero : INR N <> 0.
Proof. apply not_0_INR. lia. Qed.

(** The sums over the difference of the two frequencies. *)
Lemma difference_sums :
  big_sum (fun t => cos (2 * PI * INR f * INR t / INR N + phi
                         - 2 * PI * INR k * INR t / INR N)) N
    = (if Nat.eq_dec k f then INR N * cos phi else 0) /\
  big_sum (fun t => sin (2 * PI * INR f * INR t / INR N + phi
                         - 2 * PI * INR k * INR t / INR N)) N
    = (if Nat.eq_dec k f then INR N * sin phi else 0).
Proof.
  pose proof N_nonzero as HN.
  destruct (Nat.eq_dec k f) as [->|Hne].
  - rewrite <- !big_sum_const.
    split; apply big_sum_ext; intros t _; f_equal; ring.
  - destruct (Nat.lt_ge_cases k f) as [Hlt|Hge].
    + split.
      * rewrite <- (@sum_cos_vanishes N (f - k) phi) by lia.
        apply big_sum_ext; intros t _; f_equal.
        rewrite minus_INR by lia. field. exact HN.
      * rewrite <- (@sum_sin_vanishes N (f - k) phi) by lia.
        apply big_sum_ext; intros t _; f_equal.
        rewrite minus_INR by lia. field. exact HN.
    + split.
      * rewrite <- (@sum_cos_vanishes N (k - f) (- phi)) by lia.
        apply big_sum_ext; intros t _.
        rewrite <- cos_neg. f_equal. rewrite minus_INR by lia.
        field. exact HN.
      * apply Ropp_eq_reg. rewrite Ropp_0, <- big_sum_opp.
        rewrite <- (@sum_sin_vanishes N (k - f) (- phi)) by lia.
        apply big_sum_ext; intros t _.
        rewrite <- sin_neg. f_equal. rewrite minus_INR by lia.
        field. exact HN.
Qed.

Lemma sum_angle (t : nat) :
  2 * PI * INR f * INR t / INR N + phi + 2 * PI * INR k * INR t / INR N =
  2 * PI * INR (f + k) * INR t / INR N + phi.
Proof. rewrite plus_INR. field. exact N_nonzero. Qed.

Lemma tone_cos_sum :
  cos_sum (sample (tone N f A phi)) k N =
  if Nat.eq_dec k f then A * INR N * cos phi / 2 else 0.
Proof.
  destruct difference_sums as [Hd _].
  transitivity
    (big_sum (fun t => cos (2 * PI * INR (f + k) * INR t / INR N + phi)) N
       * (A / 2)
     + big_sum (fun t => cos (2 * PI * INR f * INR t / INR N + phi
                              - 2 * PI * INR k * INR t / INR N)) N
       * (A / 2)).
  - rewrite <- !big_sum_scale, <- big_sum_plus.
    apply big_sum_ext. intros t Ht.
    rewrite sample_tone by exact Ht.
    rewrite <- sum_angle.
    set (a := 2 * PI * INR f * INR t / INR N + phi).
    set (b := 2 * PI * INR k * INR t / INR N).
    rewrite (cos_plus a b), (cos_minus a b). field.
  - rewrite Hd, sum_cos_vanishes by lia.
    destruct (Nat.eq_dec k f); field.
Qed.

Lemma tone_sin_sum :
  sin_sum (sample (tone N f A phi)) k N =
  if Nat.eq_dec k f then - (A * INR N * sin phi / 2) else 0.
Proof.
  destruct difference_sums as [_ Hd].
  transitivity
    (big_sum (fun t => sin (2 * PI * INR (f + k) * INR t / INR N + phi)) N
       * (A / 2)
     - big_sum (fun t => sin (2 * PI * INR f * INR t / INR N + phi
                              - 2 * PI * INR k * INR t / INR N)) N
       * (A / 2)).
  - rewrite <- !big_sum_scale, <- big_sum_minus.
    apply big_sum_ext. intros t Ht.
    rewrite sample_tone by exact Ht.
    rewrite <- sum_angle.
    set (a := 2 * PI * INR f * INR t / INR N + phi).
    set (b := 2 * PI * INR k * INR t / INR N).
    rewrite (sin_plus a b), (sin_minus a b). field.
  - rewrite Hd, sum_sin_vanishes by lia.
    destruct (Nat.eq_dec k f); field.
Qed.

End ToneBins.

Lemma synthesis_identity (x y M theta : R) :
  2 * sqrt (x * x + y * y) / M * cos (theta + atan2 y x) =
  2 / M * (x * cos theta - y * sin theta).
Proof.
  rewrite cos_plus.
  pose proof (polar_cos x y) as Hc. pose proof (polar_sin x y) as Hs.
  set (m := sqrt (x * x + y * y)) in *.
  set (p := atan2 y x) in *.
  rewrite <- Hc, <- Hs. unfold Rdiv. ring.
Qed.

Lemma repeat_as_map (A : Type) (c : A) (n i : nat) :
  repeat c n = map (fun _ => c) (seq i n).
Proof.
  revert i. induction n as [|n IH]; intro i; cbn [repeat seq map].
  - reflexivity.
  - rewrite <- IH. reflexivity.
Qed.

Lemma tone_modulus (A c s h : R) :
  0 <= h -> s * s + c * c = 1 ->
  sqrt (A * h * c * (A * h * c) + A * h * s * (A * h * s)) = Rabs A * h.
Proof.
  intros Hh Hsc.
  assert (HA : Rabs A * Rabs A = A * A)
    by (rewrite <- Rabs_mult; apply Rabs_pos_eq; nra).
  apply sqrt_lem_1.
  - nra.
  - apply Rmult_le_pos; [apply Rabs_pos | exact Hh].
  - replace (Rabs A * h * (Rabs A * h)) with (Rabs A * Rabs A * (h * h))
      by ring.
    rewrite HA.
    replace (A * h * c * (A * h * c) + A * h * s * (A * h * s))
      with (A * A * (h * h) * (s * s + c * c)) by ring.
    rewrite Hsc. ring.
Qed.

(** X9.  Round trip on a pure tone.  When the signal is the tone
    [A * cos(2 pi f t / N + phi)] with [1 <= f < floor(N / 2)], the
    pipeline emits a record of frequency [f] whose amplitude is [|A|] and
    whose synthesised signal is the input signal itself; every record of
    frequency [f] is such, and every other record has amplitude [0] and an
    all-zero signal. *)
Theorem tone_round_trip (N f : nat) (A phi : R) :
  js_array_length_ok N ->
  (1 <= f < N / 2)%nat ->
  (exists r : FrequencyComponent,
      In r (components (tone N f A phi)) /\
      frequency r = f /\
      amplitude r = Rabs A /\
      signal r = tone N f A phi) /\
  (forall r : FrequencyComponent,
      In r (components (tone N f A phi)) ->
      (frequency r = f ->
       amplitude r = Rabs A /\ signal r = tone N f A phi) /\
      (frequency r <> f ->
       amplitude r = 0 /\ signal r = repeat 0 N)).
Proof.
  intros Hok Hf.
  assert (Hok' : js_array_length_ok (length (tone N f A phi)))
    by (rewrite length_tone; exact Hok).
  rewrite (components_of_signal _ Hok'). rewrite length_tone.
  assert (HN : INR N <> 0) by (apply not_0_INR; lia).
  assert (Hall : forall k : nat,
             (1 <= k < N / 2)%nat ->
             (k = f ->
              amplitude (expected_component (dft_spec (tone N f A phi)) k)
                = Rabs A /\
              signal (expected_component (dft_spec (tone N f A phi)) k)
                = tone N f A phi) /\
             (k <> f ->
              amplitude (expected_component (dft_spec (tone N f A phi)) k)
                = 0 /\
              signal (expected_component (dft_spec (tone N f A phi)) k)
                = repeat 0 N)).
  { intros k Hk.
    assert (Hbin : nth k (dft_spec (tone N f A phi)) (mkComplex 0 0) =
                   mkComplex (cos_sum (sample (tone N f A phi)) k N)
                             (- sin_sum (sample (tone N f A phi)) k N)).
    { apply nth_error_nth.
      rewrite nth_error_dft_spec by (rewrite length_tone; lia).
      rewrite dft_spec_bin, length_tone. reflexivity. }
    unfold expected_component. cbn [frequency amplitude signal].
    rewrite Hbin, length_dft_spec, length_tone. cbn [re im].
    rewrite (@tone_cos_sum N f k A phi), (@tone_sin_sum N f k A phi) by lia.
    destruct (Nat.eq_dec k f) as [E|E].
    - split; [intros _ | intro H; contradiction].
      replace (A * INR N * cos phi / 2) with (A * (INR N / 2) * cos phi)
        by field.
      replace (- - (A * INR N * sin phi / 2))
        with (A * (INR N / 2) * sin phi) by field.
      split.
      + rewrite tone_modulus.
        * field. exact HN.
        * apply Rmult_le_pos; [apply pos_INR | lra].
        * apply sin2_cos2.
      + unfold tone. apply map_ext. intro i.
        rewrite synthesis_identity, E, (cos_plus _ phi). field. exact HN.
    - split; [intro H; contradiction | intros _].
      replace (0 * 0 + - 0 * - 0) with 0 by ring. rewrite sqrt_0.
      split; [unfold Rdiv; ring|].
      rewrite (repeat_as_map 0 N 0). apply map_ext. intro i.
      unfold Rdiv. ring. }
  split.
  - exists (expected_component (dft_spec (tone N f A phi)) f).
    split; [apply in_map, in_seq; lia|].
    split; [reflexivity|].
    apply (Hall f Hf). reflexivity.
  - intros r Hr. apply in_map_iff in Hr. destruct Hr as [k [<- Hk]].
    apply in_seq in Hk.
    change (frequency (expected_component (dft_spec (tone N f A phi)) k))
      with k.
    apply Hall. lia.
Qed.

Lemma tone_round_trip_witness :
  js_array_length_ok 8 /\
  (1 <= 2 < 8 / 2)%nat /\
  (exists r : FrequencyComponent,
      In r (components (tone 8 2 3 1)) /\
      frequency r = 2%nat /\
      amplitude r = Rabs 3 /\
      signal r = tone 8 2 3 1) /\
  (forall r : FrequencyComponent,
      In r (components (tone 8 2 3 1)) ->
      (frequency r = 2%nat ->
       amplitude r = Rabs 3 /\ signal r = tone 8 2 3 1) /\
      (frequency r <> 2%nat ->
       amplitude r = 0 /\ signal r = repeat 0 8)).
Proof.
  assert (Hok : js_array_length_ok 8)
    by (unfold js_array_length_ok; simpl; lia).
  assert (Hf : (1 <= 2 < 8 / 2)%nat) by (simpl; lia).
  split; [exact Hok|]. split; [exact Hf|].
  exact (@tone_round_trip 8 2 3 1 Hok Hf).
Defined.

(* ===================================================================== *)
(** ** Resampling *)



Lemma index_Z_nat (a : list R) (j : nat) :
  index_Z a (Z.of_nat j) = nth_error a j.
Proof.
  unfold index_Z. destruct (Z.ltb_spec (Z.of_nat j) 0); [lia|].
  rewrite Nat2Z.id. reflexivity.
Qed.

Section SamplePosition.

Variables prevLen numPoints i : nat.
Hypothesis prev_nonempty : (1 <= prevLen)%nat.
Hypothesis two_points : (2 <= numPoints)%nat.
Hypothesis i_lt : (i < numPoints)%nat.




End SamplePosition.












(* ===================================================================== *)
(** ** The brush of the signal editor *)

Lemma get_set (A : Type) (a : JSArray.t A) (k j : nat) (v : A) :
  JSArray.get (JSArray.set a k v) j =
  if (j =? k)%nat then Some v else JSArray.get a j.
Proof.
  revert a j. induction k as [|k IH]; intros [|x a] [|j];
    cbn [JSArray.set]; unfold JSArray.get; cbn [nth_error Nat.eqb];
    try reflexivity.
  - destruct j; reflexivity.
  - fold (JSArray.get (JSArray.set [] k v) j). rewrite IH.
    unfold JSArray.get. destruct j; reflexivity.
  - fold (JSArray.get (JSArray.set a k v) j). rewrite IH. reflexivity.
Qed.

Lemma length_set (A : Type) (a : JSArray.t A) (k : nat) (v : A) :
  (k < length a)%nat -> length (JSArray.set a k v) = length a.
Proof.
  revert a. induction k as [|k IH]; intros [|x a] Hk;
    cbn [length JSArray.set] in *; try lia.
  rewrite IH by lia. reflexivity.
Qed.

Lemma brush_loop (n : nat) (index : Z) (val : R) (offsets : list Z)
  (a : JSArray.t R) :
  length a = n ->
  length (fold_left (brush_step n index val) offsets a) = n /\
  forall j : nat,
    (j < n)%nat ->
    JSArray.get (fold_left (brush_step n index val) offsets a) j =
    if existsb (fun o => (index + o =? Z.of_nat j)%Z) offsets
    then Some val else JSArray.get a j.
Proof.
  revert a. induction offsets as [|o offsets IH]; intros a Ha.
  - split; [exact Ha | reflexivity].
  - cbn [fold_left existsb].
    assert (Hstep : length (brush_step n index val a o) = n /\
                    forall j, (j < n)%nat ->
                      JSArray.get (brush_step n index val a o) j =
                      if (index + o =? Z.of_nat j)%Z
                      then Some val else JSArray.get a j).
    { unfold brush_step.
      destruct (Z.leb_spec 0 (index + o)); cbn [andb].
      - destruct (Z.ltb_spec (index + o) (Z.of_nat n)).
        + split; [rewrite length_set by lia; exact Ha|].
          intros j Hj. rewrite get_set.
          destruct (Nat.eqb_spec j (Z.to_nat (index + o)));
            destruct (Z.eqb_spec (index + o) (Z.of_nat j));
            try reflexivity; lia.
        + split; [exact Ha|]. intros j Hj.
          destruct (Z.eqb_spec (index + o) (Z.of_nat j)); [lia|reflexivity].
      - split; [exact Ha|]. intros j Hj.
        destruct (Z.eqb_spec (index + o) (Z.of_nat j)); [lia|reflexivity]. }
    destruct Hstep as [Hlen Hget].
    destruct (IH _ Hlen) as [IHlen IHget].
    split; [exact IHlen|]. intros j Hj.
    rewrite IHget, Hget by exact Hj.
    destruct (index + o =? Z.of_nat j)%Z; cbn [orb].
    + destruct (existsb _ offsets); reflexivity.
    + reflexivity.
Qed.

Lemma brush_index_in_range (rect : DOMRect) (numPoints : nat) (clientX : R) :
  (1 <= numPoints)%nat ->
  (0 <= brush_index rect numPoints clientX < Z.of_nat numPoints)%Z.
Proof.
  intro Hn. unfold brush_index.
  set (x := (clientX - rect_left rect) / rect_width rect * INR numPoints).
  assert (Hn1 : 0 <= INR numPoints - 1).
  { pose proof (le_INR _ _ Hn) as H. simpl in H. lra. }
  assert (H0 : 0 <= Rmin (Rmax x 0) (INR numPoints - 1)).
  { apply Rmin_glb; [apply Rmax_r | exact Hn1]. }
  assert (H1 : Rmin (Rmax x 0) (INR numPoints - 1) <= INR numPoints - 1)
    by apply Rmin_r.
  pose proof (Zfloor_bound (Rmin (Rmax x 0) (INR numPoints - 1))) as [Hf _].
  split.
  - apply (Zfloor_lub 0). exact H0.
  - apply lt_IZR. rewrite <- INR_IZR_INZ. lra.
Qed.

(** X14.  A brush stroke on a signal of [numPoints] samples keeps the
    length, aims at a sample [index] inside the signal, sets to the
    pointer's value the samples at distance at most 2 from [index], and
    leaves every other sample as it was. *)
Theorem brush_stroke (rect : DOMRect) (numPoints : nat) (clientX clientY : R)
  (prev : list R) (j : nat) :
  length prev = numPoints ->
  rect_width rect <> 0 ->
  rect_height rect <> 0 ->
  (j < numPoints)%nat ->
  (0 <= brush_index rect numPoints clientX < Z.of_nat numPoints)%Z /\
  length (updateSignalAtPoint rect numPoints clientX clientY prev)
    = numPoints /\
  JSArray.get (updateSignalAtPoint rect numPoints clientX clientY prev) j =
  Some (if (Z.abs (Z.of_nat j - brush_index rect numPoints clientX) <=? 2)%Z
        then brush_value rect clientY
        else sample prev j).
Proof.
  intros Hlen _ _ Hj.
  split; [apply brush_index_in_range; lia|].
  unfold updateSignalAtPoint.
  destruct (@brush_loop numPoints (brush_index rect numPoints clientX)
              (brush_value rect clientY) [-2; -1; 0; 1; 2]%Z
              (JSArray.dense prev))
    as [Hl Hg]; [rewrite length_dense; exact Hlen|].
  split; [exact Hl|].
  rewrite Hg by exact Hj. cbn [existsb].
  set (index := brush_index rect numPoints clientX).
  rewrite get_dense, (nth_error_nth' prev 0) by lia.
  fold (sample prev j).
  destruct (Z.leb_spec (Z.abs (Z.of_nat j - index)) 2) as [Hin|Hout];
    repeat match goal with
           | |- context [(?a =? ?b)%Z] => destruct (Z.eqb_spec a b)
           end; cbn [orb]; try reflexivity; lia.
Qed.

Lemma brush_stroke_witness :
  length [0; 0; 0; 0; 0; 0; 0; 0] = 8%nat /\
  rect_width (mkRect 0 0 100 50) <> 0 /\
  rect_height (mkRect 0 0 100 50) <> 0 /\
  (3 < 8)%nat /\
  (0 <= brush_index (mkRect 0 0 100 50) 8 50 < Z.of_nat 8)%Z /\
  length (updateSignalAtPoint (mkRect 0 0 100 50) 8 50 10
                              [0; 0; 0; 0; 0; 0; 0; 0]) = 8%nat /\
  JSArray.get (updateSignalAtPoint (mkRect 0 0 100 50) 8 50 10
                                   [0; 0; 0; 0; 0; 0; 0; 0]) 3 =
  Some (if (Z.abs (Z.of_nat 3 - brush_index (mkRect 0 0 100 50) 8 50)
            <=? 2)%Z
        then brush_value (mkRect 0 0 100 50) 10
        else sample [0; 0; 0; 0; 0; 0; 0; 0] 3).
Proof.
  assert (H1 : length [0; 0; 0; 0; 0; 0; 0; 0] = 8%nat) by reflexivity.
  assert (H2 : rect_width (mkRect 0 0 100 50) <> 0) by (simpl; lra).
  assert (H3 : rect_height (mkRect 0 0 100 50) <> 0) by (simpl; lra).
  assert (H4 : (3 < 8)%nat) by lia.
  split; [exact H1|]. split; [exact H2|]. split; [exact H3|].
  split; [exact H4|].
  exact (@brush_stroke (mkRect 0 0 100 50) 8%nat 50 10
           [0; 0; 0; 0; 0; 0; 0; 0] 3%nat H1 H2 H3 H4).
Defined.

(* ===================================================================== *)
(** ** Typed numbers *)

Lemma hold_index (i n len : nat) :
  (i < n)%nat ->
  Zfloor (INR i / INR n * INR len) = Z.of_nat (i * len / n).
Proof.
  intro Hi.
  assert (Hn : 0 < INR n) by (apply lt_0_INR; lia).
  set (q := (i * len / n)%nat).
  assert (Hq1 : (n * q <= i * len)%nat) by (subst q; nia).
  assert (Hq2 : (i * len < n * (q + 1))%nat).
  { subst q. pose proof (Nat.div_mod_eq (i * len) n).
    pose proof (Nat.mod_upper_bound (i * len) n). nia. }
  apply le_INR in Hq1. apply lt_INR in Hq2.
  rewrite !mult_INR in Hq1, Hq2. rewrite plus_INR in Hq2. simpl INR in Hq2.
  apply Zfloor_eq. rewrite <- INR_IZR_INZ.
  replace (INR i / INR n * INR len) with (INR i * INR len / INR n)
    by (field; lra).
  split.
  - apply (Rmult_le_reg_r (INR n)); [exact Hn|].
    unfold Rdiv. rewrite Rmult_assoc, Rinv_l by lra. lra.
  - apply (Rmult_lt_reg_r (INR n)); [exact Hn|].
    unfold Rdiv. rewrite Rmult_assoc, Rinv_l by lra. lra.
Qed.

Lemma applyNumbers_values (nums : list R) (numPoints : nat) :
  (1 <= length nums)%nat ->
  applyNumbers nums numPoints =
  Some (map (fun i => sample nums (i * length nums / numPoints))
            (seq 0 numPoints)).
Proof.
  intro Hlen. unfold applyNumbers.
  destruct (Nat.eqb_spec (length nums) 0); [lia|].
  f_equal. unfold JSArray.mapi. rewrite mapi_from_repeat.
  apply map_ext_in. intros i Hi. apply in_seq in Hi. cbv zeta.
  rewrite hold_index by lia. rewrite index_Z_nat.
  assert (Hidx : (i * length nums / numPoints < length nums)%nat).
  { apply Nat.Div0.div_lt_upper_bound. nia. }
  rewrite (nth_error_nth' nums 0) by exact Hidx.
  apply or_zero_some.
Qed.



(** X16.  Typing exactly [numPoints] numbers, [numPoints] being a power of
    two of at most [2^26] (so that the index is computed without
    rounding), gives exactly that signal. *)
Theorem applyNumbers_same_count (nums : list R) (e : nat) :
  length nums = (2 ^ e)%nat ->
  (e <= 26)%nat ->
  applyNumbers nums (length nums) = Some nums.
Proof.
  intros He _.
  assert (Hlen : (1 <= length nums)%nat).
  { rewrite He. apply Nat.neq_0_lt_0, Nat.pow_nonzero. lia. }
  rewrite applyNumbers_values by exact Hlen. f_equal.
  apply nth_ext with (d := 0) (d' := 0).
  - rewrite length_map, length_seq. reflexivity.
  - intros i Hi. rewrite length_map, length_seq in Hi.
    rewrite (nth_indep _ 0
               ((fun i => sample nums (i * length nums / length nums)) 0%nat))
      by (rewrite length_map, length_seq; exact Hi).
    rewrite (map_nth (fun i => sample nums (i * length nums / length nums))).
    rewrite seq_nth by exact Hi. cbn [Nat.add].
    rewrite Nat.div_mul by lia. reflexivity.
Qed.

Lemma applyNumbers_same_count_witness :
  length [7; 8; 9; 10] = (2 ^ 2)%nat /\
  (2 <= 26)%nat /\
  applyNumbers [7; 8; 9; 10] (length [7; 8; 9; 10]) = Some [7; 8; 9; 10].
Proof.
  assert (H1 : length [7; 8; 9; 10] = (2 ^ 2)%nat) by reflexivity.
  assert (H2 : (2 <= 26)%nat) by lia.
  split; [exact H1|]. split; [exact H2|].
  exact (@applyNumbers_same_count [7; 8; 9; 10] 2%nat H1 H2).
Defined.

(* ===================================================================== *)
(** ** Sorting by a key *)

Section SortByKey.

Variable A : Type.
Variable key : A -> R.
Variable cmp : A -> A -> R.
Hypothesis cmp_key : forall a b : A, cmp a b = key a - key b.

Lemma sort_insert_perm (x : A) (l : list A) :
  Permutation (x :: l) (sort_insert cmp x l).
Proof.
  induction l as [|y l IH]; cbn [sort_insert].
  - apply Permutation_refl.
  - destruct (Rle_dec (cmp x y) 0).
    + apply Permutation_refl.
    + apply perm_trans with (y :: x :: l); [apply perm_swap|].
      apply perm_skip. exact IH.
Qed.

Lemma js_sort_perm (l : list A) : Permutation l (js_sort cmp l).
Proof.
  induction l as [|x l IH]; cbn [js_sort fold_right].
  - apply perm_nil.
  - apply perm_trans with (x :: js_sort cmp l).
    + apply perm_skip. exact IH.
    + apply sort_insert_perm.
Qed.

Lemma sort_insert_sorted (x : A) (l : list A) :
  StronglySorted (fun a b => key a <= key b) l ->
  StronglySorted (fun a b => key a <= key b) (sort_insert cmp x l).
Proof.
  induction 1 as [|y l Hs IH Hy]; cbn [sort_insert].
  - repeat constructor.
  - destruct (Rle_dec (cmp x y) 0) as [Hle|Hgt]; rewrite cmp_key in *.
    + constructor; [constructor; assumption|].
      constructor; [lra|].
      rewrite Forall_forall in *. intros z Hz. specialize (Hy z Hz). lra.
    + constructor; [exact IH|].
      rewrite Forall_forall in *. intros z Hz.
      apply (Permutation_in _ (Permutation_sym (sort_insert_perm x l))) in Hz.
      destruct Hz as [<-|Hz]; [lra | apply Hy; exact Hz].
Qed.

Lemma js_sort_sorted (l : list A) :
  StronglySorted (fun a b => key a <= key b) (js_sort cmp l).
Proof.
  induction l as [|x l IH]; cbn [js_sort fold_right].
  - constructor.
  - apply sort_insert_sorted. exact IH.
Qed.

Lemma sorted_filter (f : A -> bool) (l : list A) :
  StronglySorted (fun a b => key a <= key b) l ->
  StronglySorted (fun a b => key a <= key b) (filter f l).
Proof.
  induction 1 as [|y l Hs IH Hy]; cbn [filter].
  - constructor.
  - destruct (f y); [|exact IH].
    constructor; [exact IH|].
    rewrite Forall_forall in *. intros z Hz.
    apply filter_In in Hz. apply Hy. tauto.
Qed.

Lemma sorted_split (n : nat) (l : list A) (a b : A) :
  StronglySorted (fun a b => key a <= key b) l ->
  In a (firstn n l) -> In b (skipn n l) -> key a <= key b.
Proof.
  intro Hs. revert n. induction Hs as [|y l Hs IH Hy]; intros [|n] Ha Hb;
    cbn [firstn skipn] in *; try contradiction.
  destruct Ha as [<-|Ha].
  - rewrite Forall_forall in Hy. apply Hy.
    rewrite <- (firstn_skipn n l). apply in_or_app. right. exact Hb.
  - apply (IH n); assumption.
Qed.

End SortByKey.

(* ===================================================================== *)
(** ** The components shown *)

Lemma in_firstn (A : Type) (n : nat) (l : list A) (x : A) :
  In x (firstn n l) -> In x l.
Proof.
  intro H. rewrite <- (firstn_skipn n l). apply in_or_app. left. exact H.
Qed.

Lemma by_amplitude (a b : FrequencyComponent) :
  amplitude b - amplitude a = - amplitude a - - amplitude b.
Proof. ring. Qed.

Lemma by_frequency (a b : FrequencyComponent) :
  INR (frequency a) - INR (frequency b)
  = INR (frequency a) - INR (frequency b).
Proof. reflexivity. Qed.

Lemma significant_perm (cs : list FrequencyComponent) :
  Permutation
    (firstn 15
       (filter is_significant
          (js_sort (fun a b => amplitude b - amplitude a) cs)))
    (significant cs).
Proof. apply js_sort_perm. Qed.

Lemma is_significant_spec (c : FrequencyComponent) :
  is_significant c = true <-> 0.005 < amplitude c.
Proof.
  unfold is_significant. destruct (Rlt_dec 0.005 (amplitude c)).
  - tauto.
  - split; [discriminate | contradiction].
Qed.

(** X17.  The components shown are at most 15, each is one of the given
    components and has an amplitude above 0.005, and they come by
    increasing frequency. *)
Theorem significant_selection (cs : list FrequencyComponent)
  (s : FrequencyComponent) :
  In s (significant cs) ->
  In s cs /\
  0.005 < amplitude s /\
  (length (significant cs) <= 15)%nat /\
  StronglySorted (fun a b => (frequency a <= frequency b)%nat)
                 (significant cs).
Proof.
  intro Hs.
  split; [|split; [|split]].
  - apply (Permutation_in _ (Permutation_sym (significant_perm cs))) in Hs.
    apply in_firstn, filter_In in Hs. destruct Hs as [Hs _].
    apply (Permutation_in _
             (Permutation_sym
                (js_sort_perm (fun a b => amplitude b - amplitude a) cs))).
    exact Hs.
  - apply (Permutation_in _ (Permutation_sym (significant_perm cs))) in Hs.
    apply in_firstn, filter_In in Hs. destruct Hs as [_ Hs].
    apply is_significant_spec. exact Hs.
  - rewrite <- (Permutation_length (significant_perm cs)).
    apply firstn_le_length.
  - unfold significant.
    pose proof (@js_sort_sorted FrequencyComponent
                  (fun c => INR (frequency c))
                  (fun a b => INR (frequency a) - INR (frequency b))
                  by_frequency
                  (firstn 15
                     (filter is_significant
                        (js_sort (fun a b => amplitude b - amplitude a) cs))))
      as Hsorted.
    induction Hsorted as [|y l Hl IH Hy]; constructor.
    + exact IH.
    + rewrite Forall_forall in *. intros z Hz.
      apply INR_le. apply Hy. exact Hz.
Qed.

Lemma significant_selection_witness :
  In (component_of_bin 4 1 (mkComplex 1 0))
     (significant [component_of_bin 4 1 (mkComplex 1 0)]) /\
  In (component_of_bin 4 1 (mkComplex 1 0))
     [component_of_bin 4 1 (mkComplex 1 0)] /\
  0.005 < amplitude (component_of_bin 4 1 (mkComplex 1 0)) /\
  (length (significant [component_of_bin 4 1 (mkComplex 1 0)]) <= 15)%nat /\
  StronglySorted (fun a b => (frequency a <= frequency b)%nat)
                 (significant [component_of_bin 4 1 (mkComplex 1 0)]).
Proof.
  assert (Hamp : amplitude (component_of_bin 4 1 (mkComplex 1 0)) = 1 / 2).
  { cbn [component_of_bin amplitude re im].
    replace (1 * 1 + 0 * 0) with 1 by ring.
    rewrite sqrt_1. simpl INR. field. }
  assert (Hs : In (component_of_bin 4 1 (mkComplex 1 0))
                  (significant [component_of_bin 4 1 (mkComplex 1 0)])).
  { unfold significant. cbn [js_sort fold_right sort_insert filter].
    unfold is_significant. rewrite Hamp.
    destruct (Rlt_dec 0.005 (1 / 2)) as [_|H]; [|exfalso; apply H; lra].
    cbn [firstn fold_right sort_insert]. left. reflexivity. }
  split; [exact Hs|].
  exact (@significant_selection [component_of_bin 4 1 (mkComplex 1 0)] _ Hs).
Defined.

(** X18.  The components shown are the strongest: when a given component
    with an amplitude above 0.005 is not shown, exactly 15 components are
    shown and none of them is weaker than it. *)
Theorem significant_keeps_strongest (cs : list FrequencyComponent)
  (c : FrequencyComponent) :
  In c cs ->
  0.005 < amplitude c ->
  ~ In c (significant cs) ->
  length (significant cs) = 15%nat /\
  forall s : FrequencyComponent,
    In s (significant cs) -> amplitude c <= amplitude s.
Proof.
  intros Hc Hamp Hnot.
  set (F := filter is_significant
              (js_sort (fun a b => amplitude b - amplitude a) cs)) in *.
  assert (HcF : In c F).
  { apply filter_In. split.
    - apply (Permutation_in _
               (js_sort_perm (fun a b => amplitude b - amplitude a) cs)).
      exact Hc.
    - apply is_significant_spec. exact Hamp. }
  assert (HcT : ~ In c (firstn 15 F)).
  { intro H. apply Hnot.
    apply (Permutation_in _ (significant_perm cs)). exact H. }
  assert (HcR : In c (skipn 15 F)).
  { rewrite <- (firstn_skipn 15 F) in HcF.
    apply in_app_or in HcF. tauto. }
  assert (Hsorted : StronglySorted
                      (fun a b => - amplitude a <= - amplitude b) F).
  { apply sorted_filter.
    apply (@js_sort_sorted FrequencyComponent (fun c => - amplitude c)
             (fun a b => amplitude b - amplitude a) by_amplitude). }
  split.
  - rewrite <- (Permutation_length (significant_perm cs)).
    apply firstn_length_le.
    destruct (Nat.le_gt_cases 15 (length F)) as [H|H]; [exact H|].
    rewrite skipn_all2 in HcR by lia. contradiction.
  - intros s Hs.
    assert (HsT : In s (firstn 15 F)).
    { apply (Permutation_in _ (Permutation_sym (significant_perm cs))).
      exact Hs. }
    pose proof (@sorted_split FrequencyComponent (fun c => - amplitude c)
                  15 F s c Hsorted HsT HcR) as H.
    cbv beta in H. lra.
Qed.

(** Evaluation of [significant] on given amplitudes: each comparison is
    decided by linear arithmetic. *)
Ltac decide_comparisons :=
  repeat
    (cbn [js_sort fold_right sort_insert filter firstn amplitude frequency];
     match goal with
     | |- context [Rle_dec ?a ?b] =>
         destruct (Rle_dec a b) as [_|Hn]; [|exfalso; apply Hn; simpl; lra]
     | |- context [is_significant ?c] =>
         let H := fresh in
         assert (H : is_significant c = true)
           by (apply is_significant_spec; cbn [amplitude]; lra);
         rewrite H; clear H
     end).

Lemma significant_example :
  significant example_components16 = firstn 15 example_components16.
Proof.
  unfold significant, example_components16. decide_comparisons.
  reflexivity.
Qed.

Lemma significant_keeps_strongest_witness :
  In (mkComponent 16 1 0 []) example_components16 /\
  0.005 < amplitude (mkComponent 16 1 0 []) /\
  ~ In (mkComponent 16 1 0 []) (significant example_components16) /\
  length (significant example_components16) = 15%nat /\
  forall s : FrequencyComponent,
    In s (significant example_components16) ->
    amplitude (mkComponent 16 1 0 []) <= amplitude s.
Proof.
  assert (H1 : In (mkComponent 16 1 0 []) example_components16)
    by (unfold example_components16; do 15 right; left; reflexivity).
  assert (H2 : 0.005 < amplitude (mkComponent 16 1 0 []))
    by (cbn [amplitude]; lra).
  assert (H3 : ~ In (mkComponent 16 1 0 [])
                    (significant example_components16)).
  { rewrite significant_example. cbn [firstn example_components16 In].
    intro H. repeat (destruct H as [H|H]; [discriminate H|]). exact H. }
  split; [exact H1|]. split; [exact H2|]. split; [exact H3|].
  exact (@significant_keeps_strongest example_components16 _ H1 H2 H3).
Defined.

(* ===================================================================== *)
(** ** Which lengths take the radix-2 path *)

Lemma not_power_of_two_bit (n : nat) :
  (2 <= n)%nat ->
  js_array_length_ok n ->
  (forall m : nat, n <> (2 ^ m)%nat) ->
  not_power_of_two n = true.
Proof.
  unfold js_array_length_ok, not_power_of_two. intros Hn Hok Hnp.
  apply negb_true_iff, Z.eqb_neq. intro Hland.
  set (z := Z.of_nat n) in *.
  assert (Hz : (0 < z)%Z) by (subst z; lia).
  pose proof (Z.log2_spec z Hz) as [Hlo Hhi].
  pose proof (Z.log2_nonneg z) as Hb.
  assert (Hb32 : (Z.log2 z < 32)%Z) by (apply Z.log2_lt_pow2; lia).
  assert (Hneq : z <> (2 ^ Z.log2 z)%Z).
  { intro E. apply (Hnp (Z.to_nat (Z.log2 z))).
    apply Nat2Z.inj. rewrite Nat2Z.inj_pow, Z2Nat.id by lia.
    exact E. }
  assert (Hlog : Z.log2 (z - 1) = Z.log2 z).
  { apply Z.log2_unique; [exact Hb|]. lia. }
  assert (Hbit : Z.testbit (Z.land (ToInt32 z) (ToInt32 (z - 1)))
                           (Z.log2 z) = true).
  { rewrite Z.land_spec, !ToInt32_bits by lia.
    rewrite (Z.bit_log2 z Hz).
    rewrite <- Hlog, Z.bit_log2 by lia. reflexivity. }
  rewrite Hland, Z.bits_0 in Hbit. discriminate.
Qed.

(** X19.  The dispatch of [fft]: for a length [n] of at least 2, the test
    [(n & (n - 1)) !== 0] sends the input to [dft] exactly when [n] is not
    a power of two; a power of two goes to the radix-2 step. *)
Theorem fallback_iff_not_power_of_two (input : list R) :
  (2 <= length input)%nat ->
  js_array_length_ok (length input) ->
  (not_power_of_two (length input) = true <->
   forall m : nat, length input <> (2 ^ m)%nat) /\
  ((forall m : nat, length input <> (2 ^ m)%nat) ->
   fft input = JSArray.dense (dft input)) /\
  ((exists m : nat, length input = (2 ^ m)%nat) ->
   fft input = butterfly (length input)
                         (fft (evenInput input)) (fft (oddInput input))).
Proof.
  intros Hn Hok.
  assert (Hiff : not_power_of_two (length input) = true <->
                 forall m : nat, length input <> (2 ^ m)%nat).
  { split.
    - intros Htest m E. rewrite E, power_of_two_passes in Htest.
      discriminate.
    - apply not_power_of_two_bit; assumption. }
  split; [exact Hiff|]. split.
  - intro Hnp. rewrite fft_body.
    destruct (Nat.leb_spec (length input) 1); [lia|].
    apply Hiff in Hnp. rewrite Hnp. reflexivity.
  - intros [m E]. rewrite fft_body at 1.
    destruct (Nat.leb_spec (length input) 1); [lia|].
    rewrite E at 1. rewrite power_of_two_passes. reflexivity.
Qed.

Lemma fallback_iff_not_power_of_two_witness :
  (2 <= length example_signal6)%nat /\
  js_array_length_ok (length example_signal6) /\
  (not_power_of_two (length example_signal6) = true <->
   forall m : nat, length example_signal6 <> (2 ^ m)%nat) /\
  ((forall m : nat, length example_signal6 <> (2 ^ m)%nat) ->
   fft example_signal6 = JSArray.dense (dft example_signal6)) /\
  ((exists m : nat, length example_signal6 = (2 ^ m)%nat) ->
   fft example_signal6 =
   butterfly (length example_signal6)
             (fft (evenInput example_signal6))
             (fft (oddInput example_signal6))).
Proof.
  assert (H1 : (2 <= length example_signal6)%nat) by (simpl; lia).
  assert (H2 : js_array_length_ok (length example_signal6))
    by (unfold js_array_length_ok; simpl; lia).
  split; [exact H1|]. split; [exact H2|].
  exact (@fallback_iff_not_power_of_two example_signal6 H1 H2).
Defined.
